(** * Parametric EQ visualizer: filter-response math and drag mappings

    A shallow embedding of [src/components/ParametricEQ.vue] and
    [src/utils/throttle.js].

    JavaScript numbers are modelled as extended reals: a finite value is a
    real number (rounding is idealised away), and the three special values
    [Infinity], [-Infinity] and [NaN] are kept, with the IEEE rules the
    source's operators follow on them.  Zero is unsigned: a division of a
    non-zero finite value by zero yields the infinity of the dividend's
    sign, as it does for the [+0] every divisor of the component is. *)

From Stdlib Require Import Reals Lra Lia ZArith String List.
From stdpp Require Import base list gmap strings.

(** ** JavaScript numbers *)

Module Js.

Inductive num : Type :=
| Fin (r : R)
| PInf
| NInf
| NaN.

Inductive sign : Type := Neg | Zero | Pos.

Definition sgn (r : R) : sign :=
  match total_order_T r 0 with
  | inleft (left _) => Neg
  | inleft (right _) => Zero
  | inright _ => Pos
  end.

Definition sign_mul (s t : sign) : sign :=
  match s, t with
  | Zero, _ | _, Zero => Zero
  | Pos, Pos | Neg, Neg => Pos
  | Pos, Neg | Neg, Pos => Neg
  end.

(** The infinity of a sign; the product of an infinity and zero is [NaN]. *)
Definition signed_inf (s : sign) : num :=
  match s with Pos => PInf | Neg => NInf | Zero => NaN end.

Definition sign_of (x : num) : sign :=
  match x with
  | Fin r => sgn r
  | PInf => Pos
  | NInf => Neg
  | NaN => Zero
  end.

Definition add (x y : num) : num :=
  match x, y with
  | NaN, _ | _, NaN => NaN
  | Fin a, Fin b => Fin (a + b)
  | PInf, NInf | NInf, PInf => NaN
  | PInf, _ | _, PInf => PInf
  | NInf, _ | _, NInf => NInf
  end.

Definition neg (x : num) : num :=
  match x with
  | Fin a => Fin (- a)
  | PInf => NInf
  | NInf => PInf
  | NaN => NaN
  end.

Definition sub (x y : num) : num := add x (neg y).

Definition mul (x y : num) : num :=
  match x, y with
  | NaN, _ | _, NaN => NaN
  | Fin a, Fin b => Fin (a * b)
  | _, _ => signed_inf (sign_mul (sign_of x) (sign_of y))
  end.

Definition div (x y : num) : num :=
  match x, y with
  | NaN, _ | _, NaN => NaN
  | Fin a, Fin b =>
      if Req_dec_T b 0 then signed_inf (sgn a) else Fin (a / b)
  | Fin _, _ => Fin 0
  | _, Fin b =>
      if Req_dec_T b 0 then x else signed_inf (sign_mul (sign_of x) (sgn b))
  | _, _ => NaN
  end.

(** Comparisons: every comparison with [NaN] is false. *)
Definition leb (x y : num) : bool :=
  match x, y with
  | NaN, _ | _, NaN => false
  | Fin a, Fin b => if Rle_dec a b then true else false
  | NInf, _ | _, PInf => true
  | _, _ => false
  end.

Definition ltb (x y : num) : bool :=
  match x, y with
  | NaN, _ | _, NaN => false
  | Fin a, Fin b => if Rlt_dec a b then true else false
  | PInf, _ | _, NInf => false
  | _, _ => true
  end.

Definition gtb (x y : num) : bool := ltb y x.

(** Strict equality [===] on numbers. *)
Definition seq (x y : num) : bool :=
  match x, y with
  | Fin a, Fin b => if Req_dec_T a b then true else false
  | PInf, PInf | NInf, NInf => true
  | _, _ => false
  end.

(** [Math.max] and [Math.min] of two arguments. *)
Definition max (x y : num) : num :=
  match x, y with
  | NaN, _ | _, NaN => NaN
  | _, _ => if ltb x y then y else x
  end.

Definition min (x y : num) : num :=
  match x, y with
  | NaN, _ | _, NaN => NaN
  | _, _ => if ltb y x then y else x
  end.

(** A logarithm: [g] is its value on the positive reals. *)
Definition log_with (g : R -> R) (x : num) : num :=
  match x with
  | Fin a =>
      match total_order_T a 0 with
      | inleft (left _) => NaN
      | inleft (right _) => NInf
      | inright _ => Fin (g a)
      end
  | PInf => PInf
  | _ => NaN
  end.

(** [Math.log], [Math.log2] and [Math.log10]. *)
Definition log : num -> num := log_with ln.
Definition log2 : num -> num := log_with (fun a => (ln a / ln 2)%R).
Definition log10 : num -> num := log_with (fun a => (ln a / ln 10)%R).

Definition exp (x : num) : num :=
  match x with
  | Fin a => Fin (Rtrigo_def.exp a)
  | PInf => PInf
  | NInf => Fin 0
  | NaN => NaN
  end.

Definition cos (x : num) : num :=
  match x with Fin a => Fin (Rtrigo_def.cos a) | _ => NaN end.

Definition sin (x : num) : num :=
  match x with Fin a => Fin (Rtrigo_def.sin a) | _ => NaN end.

Definition sqrt (x : num) : num :=
  match x with
  | Fin a => if Rlt_dec a 0 then NaN else Fin (R_sqrt.sqrt a)
  | PInf => PInf
  | _ => NaN
  end.

(** [x ** 2]. *)
Definition pow2 (x : num) : num :=
  match x with
  | Fin a => Fin (a * a)
  | NaN => NaN
  | _ => PInf
  end.

Definition PI : num := Fin Rtrigo1.PI.

(** A property value: a number, [null], or [undefined] (the property is
    absent).  Arithmetic reads a value through [ToNumber]. *)
Inductive value : Type :=
| Num (n : num)
| Null
| Undefined.

Definition to_num (v : value) : num :=
  match v with
  | Num n => n
  | Null => Fin 0
  | Undefined => NaN
  end.

(** [JSON.parse(JSON.stringify(v))] on a property value: a number that is
    not finite is written as [null], an absent property stays absent. *)
Definition json_value (v : value) : value :=
  match v with
  | Num (Fin r) => Num (Fin r)
  | Num _ => Null
  | Null => Null
  | Undefined => Undefined
  end.

End Js.

Declare Scope js_scope.
Delimit Scope js_scope with js.
Bind Scope js_scope with Js.num.
Notation "x + y" := (Js.add x y) : js_scope.
Notation "x - y" := (Js.sub x y) : js_scope.
Notation "x * y" := (Js.mul x y) : js_scope.
Notation "x / y" := (Js.div x y) : js_scope.
Notation "- x" := (Js.neg x) : js_scope.
Notation "x <=? y" := (Js.leb x y) : js_scope.
Notation "x >? y" := (Js.gtb x y) : js_scope.
Notation "x === y" := (Js.seq x y) (at level 70) : js_scope.

Coercion Js.Fin : R >-> Js.num.
Coercion Js.to_num : Js.value >-> Js.num.

(** ** Filters *)

(** A filter object.  Properties an object does not carry ([hz], [db], [q]
    of a custom filter; the coefficients of the others) are
    [Js.Undefined]. *)
Record Filter : Type := mkFilter {
  id : Z;
  type : string;
  hz : Js.value;
  db : Js.value;
  q : Js.value;
  b0 : Js.value;
  b1 : Js.value;
  b2 : Js.value;
  a1 : Js.value;
  a2 : Js.value
}.

Definition SAMPLE_RATE : Js.num := Js.Fin 48000.

Definition is_type (filter : Filter) (t : string) : bool :=
  String.eqb (type filter) t.

Section Gain.
Local Open Scope js_scope.

Definition getFilterGain (filter : Filter) (freq : Js.num) : Js.num :=
  if is_type filter "peaking" || is_type filter "low-shelf"
     || is_type filter "high-shelf" then
    let G : Js.num := db filter in
    let f0 : Js.num := hz filter in
    let Q : Js.num := q filter in
    if is_type filter "peaking" then
      if Q <=? Js.Fin 0 then Js.Fin 0
      else
        let x := Js.log2 (freq / f0) * Q in
        let gain := G / (Js.Fin 1 + Js.Fin 4 * x * x) in
        if G >? Js.Fin 0 then Js.max (Js.Fin 0) gain
        else Js.min (Js.Fin 0) gain
    else if is_type filter "low-shelf" then
      let steepness := Q * Js.Fin 5 in
      let normalizedFreq := (Js.log10 freq - Js.log10 f0) * steepness in
      let factor := Js.Fin 1 / (Js.Fin 1 + Js.exp normalizedFreq) in
      G * factor
    else
      let steepness := Q * Js.Fin 5 in
      let normalizedFreq := (Js.log10 freq - Js.log10 f0) * steepness in
      let factor := Js.Fin 1 / (Js.Fin 1 + Js.exp (- normalizedFreq)) in
      G * factor
  else if is_type filter "custom" then
    let w := (Js.Fin 2 * Js.PI * freq) / SAMPLE_RATE in
    let numReal :=
      b0 filter + b1 filter * Js.cos w + b2 filter * Js.cos (Js.Fin 2 * w) in
    let numImag :=
      - b1 filter * Js.sin w - b2 filter * Js.sin (Js.Fin 2 * w) in
    let denReal :=
      Js.Fin 1 + a1 filter * Js.cos w + a2 filter * Js.cos (Js.Fin 2 * w) in
    let denImag :=
      - a1 filter * Js.sin w - a2 filter * Js.sin (Js.Fin 2 * w) in
    let magnitude :=
      Js.sqrt (Js.pow2 numReal + Js.pow2 numImag)
      / Js.sqrt (Js.pow2 denReal + Js.pow2 denImag) in
    if magnitude === Js.Fin 0 then Js.NInf
    else Js.Fin 20 * Js.log10 magnitude
  else Js.Fin 0.

End Gain.

(** The [magnitude] constant of the custom branch. *)
Definition magnitude (filter : Filter) (freq : Js.num) : Js.num :=
  let w := (Js.Fin 2 * Js.PI * freq / SAMPLE_RATE)%js in
  let numReal :=
    (b0 filter + b1 filter * Js.cos w + b2 filter * Js.cos (Js.Fin 2 * w))%js in
  let numImag :=
    (- b1 filter * Js.sin w - b2 filter * Js.sin (Js.Fin 2 * w))%js in
  let denReal :=
    (Js.Fin 1 + a1 filter * Js.cos w
     + a2 filter * Js.cos (Js.Fin 2 * w))%js in
  let denImag :=
    (- a1 filter * Js.sin w - a2 filter * Js.sin (Js.Fin 2 * w))%js in
  (Js.sqrt (Js.pow2 numReal + Js.pow2 numImag)
   / Js.sqrt (Js.pow2 denReal + Js.pow2 denImag))%js.

(** [internalFilters.value.reduce((total, filter) => total + gain, 0)]. *)
Definition getTotalGain (internalFilters : list Filter) (freq : Js.num)
  : Js.num :=
  fold_left
    (fun total filter =>
       let gain := getFilterGain filter freq in
       Js.add total gain)
    internalFilters (Js.Fin 0).

(** [JSON.parse(JSON.stringify(value))] on a filter list. *)
Definition json_filter (f : Filter) : Filter :=
  mkFilter (id f) (type f)
    (Js.json_value (hz f)) (Js.json_value (db f)) (Js.json_value (q f))
    (Js.json_value (b0 f)) (Js.json_value (b1 f)) (Js.json_value (b2 f))
    (Js.json_value (a1 f)) (Js.json_value (a2 f)).

Definition json_clone (value : list Filter) : list Filter :=
  map json_filter value.

(** Assignments [sf.hz = v], [sf.db = v], [sf.q = v]. *)
Definition set_hz (v : Js.num) (f : Filter) : Filter :=
  mkFilter (id f) (type f) (Js.Num v) (db f) (q f)
    (b0 f) (b1 f) (b2 f) (a1 f) (a2 f).

Definition set_db (v : Js.num) (f : Filter) : Filter :=
  mkFilter (id f) (type f) (hz f) (Js.Num v) (q f)
    (b0 f) (b1 f) (b2 f) (a1 f) (a2 f).

Definition set_q (v : Js.num) (f : Filter) : Filter :=
  mkFilter (id f) (type f) (hz f) (db f) (Js.Num v)
    (b0 f) (b1 f) (b2 f) (a1 f) (a2 f).

(** ** The d3 collaborators *)

Module d3.

(** [d3.range(start, stop, step)] on integer arguments:
    [n = max(0, ceil((stop - start) / step))] values [start + i * step]. *)
Definition range (start stop step : Z) : list Z :=
  let n := Z.max 0 (- ((- (stop - start)) / step))%Z in
  map (fun i => (start + Z.of_nat i * step)%Z) (seq 0 (Z.to_nat n)).

(** A continuous scale: the function itself and its [invert] method. *)
Record Scale : Type := mkScale {
  apply : Js.num -> Js.num;
  invert : Js.num -> Js.num
}.

(** A scale constructor, given its [domain] and its [range]. *)
Definition ScaleCtor : Type := Js.num * Js.num -> Js.num * Js.num -> Scale.

Section Continuous.
Local Open Scope js_scope.

(** The continuous scales of d3-scale, as the library documents them:
    [normalize(a, b)] maps [a, b] onto [0, 1] (a constant [0.5] on an
    empty interval), [interpolateNumber(a, b)] maps [0, 1] onto [a, b];
    the logarithmic scale transforms its domain by [Math.log] and back
    by [Math.exp]. *)
Definition normalize (a b x : Js.num) : Js.num :=
  let b' := b - a in
  match b' with
  | Js.NaN => Js.NaN
  | Js.Fin r => if Req_dec_T r 0 then Js.Fin (1 / 2) else (x - a) / b'
  | _ => (x - a) / b'
  end.

Definition interpolateNumber (a b t : Js.num) : Js.num :=
  a * (Js.Fin 1 - t) + b * t.

Definition bimap (d r : Js.num * Js.num) (x : Js.num) : Js.num :=
  if Js.ltb (snd d) (fst d)
  then interpolateNumber (snd r) (fst r) (normalize (snd d) (fst d) x)
  else interpolateNumber (fst r) (snd r) (normalize (fst d) (snd d) x).

Definition scaleLinear : ScaleCtor := fun domain range =>
  mkScale (bimap domain range) (bimap range domain).

Definition scaleLog : ScaleCtor := fun domain range =>
  let logs := (Js.log (fst domain), Js.log (snd domain)) in
  mkScale (fun x => bimap logs range (Js.log x))
          (fun y => Js.exp (bimap range logs y)).

End Continuous.
End d3.

(** ** The throttle utility *)

(** [throttle(func, limit)]: the closure's private [inThrottle] flag and
    the pending [setTimeout] deadlines are threaded with the state [S] the
    wrapped function acts on.  The timer callback is [throttle_timeout]. *)
Record Throttled (S : Type) : Type := mkThrottled {
  inThrottle : bool;
  timers : list Z;
  inner : S
}.
Arguments mkThrottled {S} _ _ _.
Arguments inThrottle {S} _.
Arguments timers {S} _.
Arguments inner {S} _.

Definition throttle {A S : Type} (func : A -> S -> S) (limit : Z)
  : Z -> A -> Throttled S -> Throttled S :=
  fun now args t =>
    if negb (inThrottle t) then
      let s := func args (inner t) in
      mkThrottled true (timers t ++ [(now + limit)%Z]) s
    else t.

(** A timer that fires leaves the pending list. *)
Fixpoint remove_timer (deadline : Z) (l : list Z) : list Z :=
  match l with
  | [] => []
  | d :: l' => if (d =? deadline)%Z then l' else d :: remove_timer deadline l'
  end.

(** The callback [() => (inThrottle = false)] of the timer due at
    [deadline]. *)
Definition throttle_timeout {S : Type} (deadline : Z) (t : Throttled S)
  : Throttled S :=
  mkThrottled false (remove_timer deadline (timers t)) (inner t).

(** ** The component *)

(** A point of a drawn curve, [{ freq, db }]. *)
Module Sample.
Record t : Type := mk { freq : Js.num; db : Js.num }.
End Sample.

(** The attributes [updateHandles] writes: the main handle's [cx], [cy],
    the two Q lines' [x1 = x2], the two hit areas' [x], and the connector
    line's [x1], [x2], [y1 = y2]. *)
Record Handles : Type := mkHandles {
  mainHandle : Js.num * Js.num;
  qHandleVisual : Js.num * Js.num;
  qHandleHitArea : Js.num * Js.num;
  qConnectorLine : Js.num * Js.num * Js.num
}.

(** The component's refs and what it has drawn.  [filters] is the model
    value owned by the parent; [internalFilters] the working copy. *)
Record Component : Type := mkComponent {
  filters : list Filter;
  internalFilters : list Filter;
  isDragging : bool;
  totalCurve : list Sample.t;
  selectedArea : option (list Sample.t);
  handles : option Handles
}.

Definition State : Type := Throttled Component.

Definition set_filters (v : list Filter) (c : Component) : Component :=
  mkComponent v (internalFilters c) (isDragging c)
    (totalCurve c) (selectedArea c) (handles c).

Definition set_internalFilters (v : list Filter) (c : Component)
  : Component :=
  mkComponent (filters c) v (isDragging c)
    (totalCurve c) (selectedArea c) (handles c).

Definition set_isDragging (v : bool) (c : Component) : Component :=
  mkComponent (filters c) (internalFilters c) v
    (totalCurve c) (selectedArea c) (handles c).

Definition set_curves (total : list Sample.t)
    (selected : option (list Sample.t)) (c : Component) : Component :=
  mkComponent (filters c) (internalFilters c) (isDragging c)
    total selected (handles c).

Definition set_handles (h : Handles) (c : Component) : Component :=
  mkComponent (filters c) (internalFilters c) (isDragging c)
    (totalCurve c) (selectedArea c) (Some h).

(** [d3.select(chartContainerRef.value).select('svg').remove()] *)
Definition remove_svg (c : Component) : Component :=
  mkComponent (filters c) (internalFilters c) (isDragging c) [] None None.

(** A statement run on the component inside the throttled state. *)
Definition on_component (g : Component -> Component) (st : State) : State :=
  mkThrottled (inThrottle st) (timers st) (g (inner st)).

(** [throttle((value) => { filters.value = JSON.parse(JSON.stringify(value)) }, 50)] *)
Definition throttledFiltersUpdate : Z -> list Filter -> State -> State :=
  throttle (fun value => set_filters (json_clone value)) 50.

(** [symmetryFactor] and [qPositions] of [updateHandles]. *)
Definition qPositions (sf : Filter) : Js.num * Js.num :=
  let symmetryFactor := (Js.Fin 1 + Js.Fin 1 / q sf)%js in
  ((hz sf / symmetryFactor)%js, (hz sf * symmetryFactor)%js).

(** The body of the Q drag handler after [handleFreq] is known; [d] is the
    datum, 0 for the left handle and 1 for the right one. *)
Definition qDrag_symmetryFactor (handleFreq : Js.num) (d : Z) (sf : Filter)
  : Js.num :=
  if (d =? 1)%Z
  then Js.max (Js.Fin 1.001) (handleFreq / hz sf)%js
  else Js.max (Js.Fin 1.001) (hz sf / handleFreq)%js.

Definition qDragQ (handleFreq : Js.num) (d : Z) (sf : Filter) : Js.num :=
  let symmetryFactor := qDrag_symmetryFactor handleFreq d sf in
  let newQ := (Js.Fin 1 / (symmetryFactor - Js.Fin 1))%js in
  Js.max (Js.Fin 0.1) (Js.min (Js.Fin 20) newQ).

Section Chart.

(** The scale constructors [d3.scaleLog] and [d3.scaleLinear], the
    container's [clientWidth] and the [selectedId] prop. *)
Variable scaleLog scaleLinear : d3.ScaleCtor.
Variable clientWidth : Z.
Variable selectedId : Z.

Local Open Scope js_scope.

(** [margin = { top: 60, right: 40, bottom: 30, left: 60 }], [height = 400]. *)
Definition innerWidth : Z := (clientWidth - 60 - 40)%Z.
Definition innerHeight : Z := (400 - 60 - 30)%Z.

Definition xScale : d3.Scale :=
  scaleLog (Js.Fin 10, Js.Fin 20000) (Js.Fin 0, Js.Fin (IZR innerWidth)).
Definition yScale : d3.Scale :=
  scaleLinear (Js.Fin (-25), Js.Fin 25) (Js.Fin (IZR innerHeight), Js.Fin 0).

(** [internalFilters.value.find((f) => f.id === selectedId)], with the
    position of the object found. *)
Definition selectedFilter (c : Component) : option (nat * Filter) :=
  list_find (fun f => id f = selectedId) (internalFilters c).

Definition sampleCurve (gainAt : Js.num -> Js.num) : list Sample.t :=
  map (fun x : Z =>
         Sample.mk (d3.invert xScale (Js.Fin (IZR x)))
                   (gainAt (d3.invert xScale (Js.Fin (IZR x)))))
      (d3.range 0 innerWidth 2).

Definition updateCurves (c : Component) : Component :=
  let lineData := sampleCurve (getTotalGain (internalFilters c)) in
  match selectedFilter c with
  | Some (_, sf) =>
      let selectedLineData := sampleCurve (getFilterGain sf) in
      set_curves lineData (Some selectedLineData) c
  | None => set_curves lineData None c
  end.

(** The curves drawn are those of the current filters. *)
Definition up_to_date (c : Component) : Prop :=
  totalCurve c
  = sampleCurve (getTotalGain (internalFilters c)) /\
  selectedArea c
  = match selectedFilter c with
    | Some (_, sf) =>
        Some (sampleCurve (getFilterGain sf))
    | None => None
    end.

(** [sf] is the selected filter object, shared with [internalFilters]: an
    assignment to one of its properties alters the list at its position. *)
Definition assign (sf : nat) (g : Filter -> Filter) (c : Component)
  : Component :=
  set_internalFilters (alter g sf (internalFilters c)) c.

Definition handleYValue (sf : Filter) : Js.num :=
  if is_type sf "peaking" then db sf else db sf / Js.Fin 2.

Definition updateHandles (sf : nat) (c : Component) : Component :=
  match internalFilters c !! sf with
  | Some f =>
      let yPos := d3.apply yScale (handleYValue f) in
      let cx := d3.apply xScale (hz f) in
      let x0 := d3.apply xScale (fst (qPositions f)) in
      let x1 := d3.apply xScale (snd (qPositions f)) in
      set_handles
        (mkHandles (cx, yPos) (x0, x1)
           (x0 - Js.Fin 12, x1 - Js.Fin 12) (x0, x1, yPos)) c
  | None => c
  end.

(** The main handle's drag handler on the selected filter. *)
Definition handleDrag_filter (event_x event_y : Js.num) (sf : Filter)
  : Filter :=
  let sf1 :=
    set_hz (Js.max (Js.Fin 20)
              (Js.min (Js.Fin 20000) (d3.invert xScale event_x))) sf in
  let draggedDb := d3.invert yScale event_y in
  if is_type sf1 "peaking" then
    set_db (Js.max (Js.Fin (-25)) (Js.min (Js.Fin 25) draggedDb)) sf1
  else
    let fullGain := draggedDb * Js.Fin 2 in
    set_db (Js.max (Js.Fin (-25)) (Js.min (Js.Fin 25) fullGain)) sf1.

(** The Q handles' drag handler on the selected filter. *)
Definition qDrag_filter (event_x : Js.num) (d : Z) (sf : Filter) : Filter :=
  let handleFreq := d3.invert xScale (event_x + Js.Fin 12) in
  set_q (qDragQ handleFreq d sf) sf.

Definition drag_start (st : State) : State :=
  on_component (set_isDragging true) st.

Definition handleDrag_drag (now : Z) (sf : nat) (event_x event_y : Js.num)
    (st : State) : State :=
  let st1 := on_component (assign sf (handleDrag_filter event_x event_y)) st in
  let st2 := on_component (updateHandles sf) st1 in
  let st3 := on_component updateCurves st2 in
  throttledFiltersUpdate now (internalFilters (inner st3)) st3.

Definition qDrag_drag (now : Z) (sf : nat) (event_x : Js.num) (d : Z)
    (st : State) : State :=
  let st1 := on_component (assign sf (qDrag_filter event_x d)) st in
  let st2 := on_component (updateHandles sf) st1 in
  let st3 := on_component updateCurves st2 in
  throttledFiltersUpdate now (internalFilters (inner st3)) st3.

(** Both drag behaviours end alike: [isDragging.value = false;
    filters.value = internalFilters.value]. *)
Definition drag_end (st : State) : State :=
  on_component
    (fun c => set_filters (internalFilters c) (set_isDragging false c)) st.

(** The handles exist when a filter is selected and it is not a custom
    one; [sf] is then bound to that filter. *)
Definition dragTarget (c : Component) : option nat :=
  match selectedFilter c with
  | Some (i, f) => if is_type f "custom" then None else Some i
  | None => None
  end.

(** [drawChart], on the mounted container, removes what was drawn and
    draws anew. *)
Definition drawChart (c : Component) : Component :=
  let c := remove_svg c in
  match dragTarget c with
  | Some sf => updateCurves (updateHandles sf c)
  | None => updateCurves c
  end.

(** The watcher on [filters]. *)
Definition watch_filters (c : Component) : Component :=
  if isDragging c then c
  else drawChart (set_internalFilters (json_clone (filters c)) c).

(** What the event loop runs: drag events of either behaviour, and the
    throttle's timer callback. *)
Inductive task : Type :=
| DragStart
| HandleDrag (event_x event_y : Js.num)
| QDrag (event_x : Js.num) (d : Z)
| DragEnd
| Timeout (deadline : Z)
| WatchFilters.

Definition exec (sf : nat) (now : Z) (k : task) (st : State) : State :=
  match k with
  | DragStart => drag_start st
  | HandleDrag x y => handleDrag_drag now sf x y st
  | QDrag x d => qDrag_drag now sf x d st
  | DragEnd => drag_end st
  | Timeout deadline => throttle_timeout deadline st
  | WatchFilters => on_component watch_filters st
  end.

(** A schedule is a list of tasks with the times they run at. *)
Fixpoint run (sf : nat) (sched : list (Z * task)) (st : State) : State :=
  match sched with
  | [] => st
  | (now, k) :: rest => run sf rest (exec sf now k st)
  end.

(** A timer callback runs no earlier than its deadline, and only for a
    timer that is pending; time does not go backwards. *)
Fixpoint scheduled (sf : nat) (from : Z) (sched : list (Z * task))
    (st : State) : Prop :=
  match sched with
  | [] => True
  | (now, k) :: rest =>
      (from <= now)%Z /\
      match k with
      | Timeout deadline => In deadline (timers st) /\ (deadline <= now)%Z
      | _ => True
      end /\
      scheduled sf now rest (exec sf now k st)
  end.

End Chart.

(** ** The application

    [App.vue] owns the filters: one array per channel, the active channel
    and one selected id per channel.  Its objects are edited through
    number inputs, so a coefficient may hold a value of any type. *)

(** A property value of any type the inputs can leave behind. *)
Inductive any : Type :=
| AnyNum (n : Js.num)
| AnyStr (s : string)
| AnyNull
| AnyUndefined.

(** [typeof v === 'number'] and [isNaN] on a number. *)
Definition typeof_number (v : any) : bool :=
  match v with AnyNum _ => true | _ => false end.

Definition isNaN (n : Js.num) : bool :=
  match n with Js.NaN => true | _ => false end.

(** [validateCoeffs(filter)]: the object is a map from property names;
    a property that is missing reads as [undefined]. *)
Definition coeff_keys : list string := ["b0"; "b1"; "b2"; "a1"; "a2"]%string.

Definition validateCoeff (filter : gmap string any) (key : string)
  : gmap string any :=
  let v := default AnyUndefined (filter !! key) in
  if negb (typeof_number v)
     || match v with AnyNum n => isNaN n | _ => false end
  then <[key := AnyNum (Js.Fin 0)]> filter
  else filter.

Definition validateCoeffs (filter : gmap string any) : gmap string any :=
  foldl validateCoeff filter coeff_keys.

(** The refs of [App.vue]. *)
Record App : Type := mkApp {
  channels : gmap string (list Filter);
  activeChannel : string;
  selectedLeftFilterId : Z;
  selectedRightFilterId : Z
}.

(** The buttons' [activeChannel = 'left'] and [activeChannel = 'right']. *)
Definition set_activeChannel (c : string) (app : App) : App :=
  mkApp (channels app) c (selectedLeftFilterId app)
    (selectedRightFilterId app).

(** The computed [activeFilters]: its getter and its setter. *)
Definition activeFilters_get (app : App) : option (list Filter) :=
  channels app !! activeChannel app.

Definition activeFilters_set (newFilters : list Filter) (app : App) : App :=
  mkApp (<[activeChannel app := newFilters]> (channels app))
    (activeChannel app) (selectedLeftFilterId app)
    (selectedRightFilterId app).

(** The computed [selectedFilterId]: its getter and its setter. *)
Definition selectedFilterId_get (app : App) : Z :=
  if String.eqb (activeChannel app) "left"
  then selectedLeftFilterId app
  else selectedRightFilterId app.

Definition selectedFilterId_set (newId : Z) (app : App) : App :=
  if String.eqb (activeChannel app) "left"
  then mkApp (channels app) (activeChannel app) newId
         (selectedRightFilterId app)
  else mkApp (channels app) (activeChannel app)
         (selectedLeftFilterId app) newId.

(** ** Reference definitions

    The quantities the properties are stated with: the responses in closed
    form on real numbers, clamping, sums, and the data of the scenarios. *)

Section Reference.
Local Open Scope R_scope.

(** The peaking gain in the specification's words, on real numbers. *)
Definition peaking_gain (hz db q f : R) : R :=
  let x := (ln (f / hz) / ln 2 * q)%R in
  let gain := (db / (1 + 4 * x ^ 2))%R in
  if Rlt_dec 0 db then Rmax 0 gain else Rmin 0 gain.

(** [normalizedFreq] of both shelf branches, on real numbers. *)
Definition shelf_normalized (hz q f : R) : R :=
  (ln f / ln 10 - ln hz / ln 10) * (q * 5).

Definition low_shelf_gain (hz db q f : R) : R :=
  db * (1 / (1 + exp (shelf_normalized hz q f))).

Definition high_shelf_gain (hz db q f : R) : R :=
  db * (1 / (1 + exp (- shelf_normalized hz q f))).

(** The squared modulus of [c0 + c1 e^{-jw} + c2 e^{-2jw}]. *)
Definition biquad_sq (c0 c1 c2 w : R) : R :=
  let re := c0 + c1 * cos w + c2 * cos (2 * w) in
  let im := - c1 * sin w - c2 * sin (2 * w) in
  re * re + im * im.

Definition biquad_w (f : R) : R := 2 * PI * f / 48000.

(** [clamp(v, lo, hi)] on real numbers. *)
Definition clampR (lo hi v : R) : R :=
  if Rlt_dec v lo then lo else if Rlt_dec hi v then hi else v.

(** [clamp] on numbers: the infinities are pulled to the nearer bound and
    [NaN] stays. *)
Definition clamp (lo hi : R) (v : Js.num) : Js.num :=
  match v with
  | Js.Fin r => Js.Fin (clampR lo hi r)
  | Js.PInf => Js.Fin hi
  | Js.NInf => Js.Fin lo
  | Js.NaN => Js.NaN
  end.

End Reference.

(** The arithmetic sum of a list of gains, starting from 0. *)
Fixpoint sum_gains (gains : list Js.num) : Js.num :=
  match gains with
  | [] => Js.Fin 0
  | g :: rest => Js.add g (sum_gains rest)
  end.

(** The sum of finite gains is the real sum. *)
Fixpoint sum_reals (gains : list R) : R :=
  match gains with
  | [] => 0%R
  | g :: rest => (g + sum_reals rest)%R
  end.

(** The tasks that change a parameter: the two drag handlers. *)
Definition is_change (k : task) : bool :=
  match k with
  | HandleDrag _ _ | QDrag _ _ => true
  | _ => false
  end.

(** A descriptive filter whose three parameters are finite and within
    the ranges the drag handlers clamp to. *)
Definition in_range (f : Filter) : Prop :=
  exists h d qv : R,
    hz f = Js.Num (Js.Fin h) /\ db f = Js.Num (Js.Fin d) /\
    q f = Js.Num (Js.Fin qv) /\
    (20 <= h <= 20000)%R /\ (-25 <= d <= 25)%R /\ (0.1 <= qv <= 20)%R.

(** A filter whose eight numeric properties are finite numbers or absent. *)
Definition json_safe_value (v : Js.value) : Prop :=
  match v with
  | Js.Num (Js.Fin _) | Js.Null | Js.Undefined => True
  | Js.Num _ => False
  end.

Definition json_safe (f : Filter) : Prop :=
  json_safe_value (hz f) /\ json_safe_value (db f) /\
  json_safe_value (q f) /\ json_safe_value (b0 f) /\
  json_safe_value (b1 f) /\ json_safe_value (b2 f) /\
  json_safe_value (a1 f) /\ json_safe_value (a2 f).

(** A scale whose [invert] undoes it within [eps] on the numbers between
    [lo] and [hi]: within [eps] times the value, as for a logarithmic
    scale, or within [eps], as for a linear one. *)
Definition inverts_relative (eps lo hi : R) (s : d3.Scale) : Prop :=
  forall r : R, (lo <= r <= hi)%R ->
    exists p r' : R,
      d3.apply s (Js.Fin r) = Js.Fin p /\
      d3.invert s (Js.Fin p) = Js.Fin r' /\
      (Rabs (r' - r) <= eps * r)%R.

Definition inverts_between (eps lo hi : R) (s : d3.Scale) : Prop :=
  forall r : R, (lo <= r <= hi)%R ->
    exists p r' : R,
      d3.apply s (Js.Fin r) = Js.Fin p /\
      d3.invert s (Js.Fin p) = Js.Fin r' /\
      (Rabs (r' - r) <= eps)%R.

(** The throttle is closed exactly while its one timer is pending. *)
Definition one_timer {S : Type} (t : Throttled S) : Prop :=
  (inThrottle t = false /\ timers t = []) \/
  (inThrottle t = true /\ exists deadline, timers t = [deadline]).

(** The known filter types. *)
Definition known_type (f : Filter) : bool :=
  is_type f "peaking" || is_type f "low-shelf" || is_type f "high-shelf"
  || is_type f "custom".

(** What [validateCoeffs] leaves in a coefficient that held [o]. *)
Definition validated (o : option any) : any :=
  match o with
  | Some (AnyNum n) => if isNaN n then AnyNum (Js.Fin 0) else AnyNum n
  | _ => AnyNum (Js.Fin 0)
  end.

(** The tasks other than a run of the watcher. *)
Definition not_watch (tk : Z * task) : bool :=
  match snd tk with WatchFilters => false | _ => true end.

(** The filters and the state of the scenarios. *)
Definition peaking_A : Filter :=
  mkFilter 1 "peaking" (Js.Num (Js.Fin 1000)) (Js.Num (Js.Fin 6))
    (Js.Num (Js.Fin 1)) Js.Undefined Js.Undefined Js.Undefined
    Js.Undefined Js.Undefined.

Definition low_shelf_B : Filter :=
  mkFilter 2 "low-shelf" (Js.Num (Js.Fin 100)) (Js.Num (Js.Fin 6))
    (Js.Num (Js.Fin 0.707)) Js.Undefined Js.Undefined Js.Undefined
    Js.Undefined Js.Undefined.

Definition high_shelf_B : Filter :=
  mkFilter 3 "high-shelf" (Js.Num (Js.Fin 100)) (Js.Num (Js.Fin 6))
    (Js.Num (Js.Fin 0.707)) Js.Undefined Js.Undefined Js.Undefined
    Js.Undefined Js.Undefined.

(** A custom filter whose numerator coefficients are all 0. *)
Definition custom_mute : Filter :=
  mkFilter 4 "custom" Js.Undefined Js.Undefined Js.Undefined
    (Js.Num (Js.Fin 0)) (Js.Num (Js.Fin 0)) (Js.Num (Js.Fin 0))
    (Js.Num (Js.Fin 0)) (Js.Num (Js.Fin 0)).

Definition filter_C : Filter :=
  mkFilter 1 "peaking" (Js.Num (Js.Fin 1000)) (Js.Num (Js.Fin 0))
    (Js.Num (Js.Fin 2)) Js.Undefined Js.Undefined Js.Undefined
    Js.Undefined Js.Undefined.

Definition shelf_q0 : Filter :=
  mkFilter 5 "high-shelf" (Js.Num (Js.Fin 4000)) (Js.Num (Js.Fin 8))
    (Js.Num (Js.Fin 0)) Js.Undefined Js.Undefined Js.Undefined
    Js.Undefined Js.Undefined.


Definition component_A : Component :=
  mkComponent [peaking_A] [peaking_A] false [] None None.

Definition state_A : State := mkThrottled false [] component_A.

(** [state_A] with a drag under way. *)
Definition state_dragging : State :=
  mkThrottled false []
    (mkComponent [peaking_A] [peaking_A] true [] None None).

(** * Properties *)

(** ** Arithmetic on finite numbers *)

Arguments Js.add : simpl never.
Arguments Js.sub : simpl never.
Arguments Js.neg : simpl never.
Arguments Js.mul : simpl never.
Arguments Js.div : simpl never.
Arguments Js.leb : simpl never.
Arguments Js.ltb : simpl never.
Arguments Js.gtb : simpl never.
Arguments Js.seq : simpl never.
Arguments Js.max : simpl never.
Arguments Js.min : simpl never.
Arguments Js.log_with : simpl never.
Arguments Js.log : simpl never.
Arguments Js.log2 : simpl never.
Arguments Js.log10 : simpl never.
Arguments Js.exp : simpl never.
Arguments Js.cos : simpl never.
Arguments Js.sin : simpl never.
Arguments Js.sqrt : simpl never.
Arguments Js.pow2 : simpl never.

Create Rewrite HintDb js.

Section JsFacts.
Local Open Scope R_scope.

Lemma add_Fin a b : Js.add (Js.Fin a) (Js.Fin b) = Js.Fin (a + b).
Proof. reflexivity. Qed.

Lemma neg_Fin a : Js.neg (Js.Fin a) = Js.Fin (- a).
Proof. reflexivity. Qed.

Lemma sub_Fin a b : Js.sub (Js.Fin a) (Js.Fin b) = Js.Fin (a - b).
Proof. reflexivity. Qed.

Lemma mul_Fin a b : Js.mul (Js.Fin a) (Js.Fin b) = Js.Fin (a * b).
Proof. reflexivity. Qed.

Lemma exp_Fin a : Js.exp (Js.Fin a) = Js.Fin (exp a).
Proof. reflexivity. Qed.

Lemma cos_Fin a : Js.cos (Js.Fin a) = Js.Fin (cos a).
Proof. reflexivity. Qed.

Lemma sin_Fin a : Js.sin (Js.Fin a) = Js.Fin (sin a).
Proof. reflexivity. Qed.

Lemma pow2_Fin a : Js.pow2 (Js.Fin a) = Js.Fin (a * a).
Proof. reflexivity. Qed.

Lemma sgn_pos r : 0 < r -> Js.sgn r = Js.Pos.
Proof.
  intros H. unfold Js.sgn.
  destruct (total_order_T r 0) as [[Hlt | Heq] | Hgt]; try lra; reflexivity.
Qed.

Lemma div_Fin a b : b <> 0 -> Js.div (Js.Fin a) (Js.Fin b) = Js.Fin (a / b).
Proof.
  intros Hb. unfold Js.div. destruct (Req_dec_T b 0); [contradiction | reflexivity].
Qed.

Lemma div_Fin_zero a : 0 < a -> Js.div (Js.Fin a) (Js.Fin 0) = Js.PInf.
Proof.
  intros Ha. unfold Js.div. destruct (Req_dec_T 0 0); [| lra].
  rewrite sgn_pos by assumption. reflexivity.
Qed.

Lemma max_Fin a b : Js.max (Js.Fin a) (Js.Fin b) = Js.Fin (Rmax a b).
Proof.
  unfold Js.max, Js.ltb, Rmax.
  destruct (Rlt_dec a b), (Rle_dec a b);
    first [reflexivity | lra | f_equal; lra].
Qed.

Lemma min_Fin a b : Js.min (Js.Fin a) (Js.Fin b) = Js.Fin (Rmin a b).
Proof.
  unfold Js.min, Js.ltb, Rmin.
  destruct (Rlt_dec b a), (Rle_dec a b);
    first [reflexivity | lra | f_equal; lra].
Qed.

Lemma log_with_pos g a : 0 < a -> Js.log_with g (Js.Fin a) = Js.Fin (g a).
Proof.
  intros Ha. unfold Js.log_with.
  destruct (total_order_T a 0) as [[Hlt | Heq] | Hgt]; try lra; reflexivity.
Qed.

Lemma leb_Fin_true a b : a <= b -> Js.leb (Js.Fin a) (Js.Fin b) = true.
Proof. intros H. unfold Js.leb. destruct (Rle_dec a b); [reflexivity | lra]. Qed.

Lemma leb_Fin_false a b : b < a -> Js.leb (Js.Fin a) (Js.Fin b) = false.
Proof. intros H. unfold Js.leb. destruct (Rle_dec a b); [lra | reflexivity]. Qed.

Lemma gtb_Fin a b :
  Js.gtb (Js.Fin a) (Js.Fin b) = if Rlt_dec b a then true else false.
Proof. reflexivity. Qed.

Lemma add_Fin_0_l x : Js.add (Js.Fin 0) x = x.
Proof. destruct x; unfold Js.add; try reflexivity. f_equal. lra. Qed.

Lemma add_comm x y : Js.add x y = Js.add y x.
Proof. destruct x, y; unfold Js.add; try reflexivity. f_equal. lra. Qed.

Lemma add_assoc x y z : Js.add x (Js.add y z) = Js.add (Js.add x y) z.
Proof. destruct x, y, z; unfold Js.add; try reflexivity. f_equal. lra. Qed.

End JsFacts.

#[export] Hint Rewrite add_Fin neg_Fin sub_Fin mul_Fin exp_Fin cos_Fin sin_Fin
  pow2_Fin max_Fin min_Fin : js.

(** ** The peaking response *)

Section Peaking.
Local Open Scope R_scope.

Lemma peaking_gain_center hz db q : 0 < hz -> peaking_gain hz db q hz = db.
Proof.
  intros Hhz. unfold peaking_gain.
  replace (hz / hz) with 1 by (field; lra).
  rewrite ln_1.
  replace (0 / ln 2 * q) with 0 by (unfold Rdiv; ring).
  replace (db / (1 + 4 * 0 ^ 2)) with db by field.
  destruct (Rlt_dec 0 db).
  - apply Rmax_right. lra.
  - apply Rmin_right. lra.
Qed.

Lemma peaking_finite (flt : Filter) (hzv dbv qv f : R) :
  type flt = "peaking"%string ->
  hz flt = Js.Num (Js.Fin hzv) ->
  db flt = Js.Num (Js.Fin dbv) ->
  q flt = Js.Num (Js.Fin qv) ->
  0 < hzv -> 0 < qv -> 0 < f ->
  getFilterGain flt (Js.Fin f) = Js.Fin (peaking_gain hzv dbv qv f).
Proof.
  intros Hty Hhz Hdb Hq Hhzv Hqv Hf.
  unfold getFilterGain, is_type. rewrite Hty, Hhz, Hdb, Hq. simpl.
  rewrite leb_Fin_false by assumption.
  rewrite div_Fin by lra.
  unfold Js.log2. rewrite log_with_pos by (apply Rdiv_lt_0_compat; assumption).
  autorewrite with js.
  set (x := ln (f / hzv) / ln 2 * qv).
  assert (Hden : 1 + 4 * x * x <> 0) by nra.
  rewrite div_Fin by assumption.
  rewrite gtb_Fin. unfold peaking_gain. fold x.
  replace (1 + 4 * x ^ 2) with (1 + 4 * x * x) by ring.
  destruct (Rlt_dec 0 dbv).
  - apply max_Fin.
  - apply min_Fin.
Qed.

End Peaking.

Section PeakingClaim.
Local Open Scope R_scope.

Lemma ln_2_neq_0 : ln 2 <> 0.
Proof.
  assert (H : ln 1 < ln 2) by (apply ln_increasing; lra).
  rewrite ln_1 in H. lra.
Qed.

Lemma peaking_gain_octave : peaking_gain 1000 6 1 2000 = 1.2.
Proof.
  unfold peaking_gain.
  replace (2000 / 1000) with 2 by field.
  replace (ln 2 / ln 2 * 1) with 1 by (field; apply ln_2_neq_0).
  destruct (Rlt_dec 0 6); [| lra].
  replace (6 / (1 + 4 * 1 ^ 2)) with 1.2 by lra.
  apply Rmax_right. lra.
Qed.

(** C2.  A peaking filter with finite parameters, [hz > 0] and [q > 0]
    answers, at every frequency [f > 0], [db / (1 + 4 x^2)] with
    [x = log2 (f / hz) * q], clamped toward zero by the sign of [db]
    ([max (0, gain)] when [db > 0], [min (0, gain)] otherwise); at [f = hz]
    it answers [db]; with [q <= 0] it answers 0 at every frequency; and
    the filter [{hz: 1000, db: 6, q: 1}] answers 6 at 1000 Hz and 1.2 at
    2000 Hz. *)
Theorem peaking_response (flt : Filter) (hzv dbv qv : R) :
  type flt = "peaking"%string ->
  hz flt = Js.Num (Js.Fin hzv) ->
  db flt = Js.Num (Js.Fin dbv) ->
  q flt = Js.Num (Js.Fin qv) ->
  0 < hzv ->
  (0 < qv -> forall f, 0 < f ->
     getFilterGain flt (Js.Fin f) = Js.Fin (peaking_gain hzv dbv qv f)) /\
  (0 < qv -> getFilterGain flt (Js.Fin hzv) = Js.Fin dbv) /\
  (qv <= 0 -> forall freq : Js.num, getFilterGain flt freq = Js.Fin 0) /\
  getFilterGain peaking_A (Js.Fin 1000) = Js.Fin 6 /\
  getFilterGain peaking_A (Js.Fin 2000) = Js.Fin 1.2.
Proof.
  intros Hty Hhz Hdb Hq Hhzv. repeat split.
  - intros Hqv f Hf. apply peaking_finite; assumption.
  - intros Hqv.
    rewrite (peaking_finite flt hzv dbv qv hzv) by assumption.
    f_equal. apply peaking_gain_center. assumption.
  - intros Hqv freq. unfold getFilterGain, is_type. rewrite Hty, Hq. simpl.
    rewrite leb_Fin_true by assumption. reflexivity.
  - rewrite (peaking_finite peaking_A 1000 6 1 1000) by (reflexivity || lra).
    f_equal. apply peaking_gain_center. lra.
  - rewrite (peaking_finite peaking_A 1000 6 1 2000) by (reflexivity || lra).
    f_equal. apply peaking_gain_octave.
Qed.

Lemma peaking_response_witness :
  getFilterGain peaking_A (Js.Fin 500)
  = Js.Fin (peaking_gain 1000 6 1 500).
Proof.
  refine (proj1 (peaking_response peaking_A 1000 6 1
                   eq_refl eq_refl eq_refl eq_refl _) _ 500 _); lra.
Defined.

End PeakingClaim.

(** ** The aggregate response *)

Lemma fold_gain_acc (fs : list Filter) (freq acc : Js.num) :
  fold_left (fun total filter => Js.add total (getFilterGain filter freq))
    fs acc
  = Js.add acc (sum_gains (map (fun flt => getFilterGain flt freq) fs)).
Proof.
  revert acc. induction fs as [| flt fs IH]; intros acc; simpl.
  - rewrite add_comm. symmetry. apply add_Fin_0_l.
  - rewrite IH. symmetry. apply add_assoc.
Qed.

Lemma sum_gains_finite (gains : list R) :
  sum_gains (map Js.Fin gains) = Js.Fin (sum_reals gains).
Proof.
  induction gains as [| g rest IH]; simpl; [reflexivity |].
  rewrite IH. reflexivity.
Qed.

(** C3.  The total gain of a filter set at a frequency is the sum, started
    from 0, of every filter's gain at that frequency, decibels added as
    they are: nothing for the empty set, one more term for one more filter,
    and the real sum when every gain is finite. *)
Theorem getTotalGain_sum (fs : list Filter) (freq : Js.num) :
  getTotalGain fs freq
  = sum_gains (map (fun flt => getFilterGain flt freq) fs) /\
  getTotalGain [] freq = Js.Fin 0 /\
  (forall flt, getTotalGain (fs ++ [flt]) freq
               = Js.add (getTotalGain fs freq) (getFilterGain flt freq)) /\
  (forall gains : list R,
     map (fun flt => getFilterGain flt freq) fs = map Js.Fin gains ->
     getTotalGain fs freq = Js.Fin (sum_reals gains)).
Proof.
  assert (Hsum : forall l, getTotalGain l freq
            = sum_gains (map (fun flt => getFilterGain flt freq) l)).
  { intros l. unfold getTotalGain. rewrite fold_gain_acc. apply add_Fin_0_l. }
  repeat split.
  - apply Hsum.
  - intros flt. unfold getTotalGain. rewrite fold_left_app. reflexivity.
  - intros gains Hg. rewrite Hsum, Hg. apply sum_gains_finite.
Qed.

(** ** The shelf responses *)

Section Shelves.
Local Open Scope R_scope.

Lemma one_plus_exp_neq_0 n : 1 + exp n <> 0.
Proof. pose proof (exp_pos n). lra. Qed.

Lemma low_shelf_finite (flt : Filter) (hzv dbv qv f : R) :
  type flt = "low-shelf"%string ->
  hz flt = Js.Num (Js.Fin hzv) ->
  db flt = Js.Num (Js.Fin dbv) ->
  q flt = Js.Num (Js.Fin qv) ->
  0 < hzv -> 0 < f ->
  getFilterGain flt (Js.Fin f) = Js.Fin (low_shelf_gain hzv dbv qv f).
Proof.
  intros Hty Hhz Hdb Hq Hhzv Hf.
  unfold getFilterGain, is_type. rewrite Hty, Hhz, Hdb, Hq. simpl.
  unfold Js.log10. rewrite !log_with_pos by assumption.
  autorewrite with js.
  rewrite div_Fin by apply one_plus_exp_neq_0.
  autorewrite with js. reflexivity.
Qed.

Lemma high_shelf_finite (flt : Filter) (hzv dbv qv f : R) :
  type flt = "high-shelf"%string ->
  hz flt = Js.Num (Js.Fin hzv) ->
  db flt = Js.Num (Js.Fin dbv) ->
  q flt = Js.Num (Js.Fin qv) ->
  0 < hzv -> 0 < f ->
  getFilterGain flt (Js.Fin f) = Js.Fin (high_shelf_gain hzv dbv qv f).
Proof.
  intros Hty Hhz Hdb Hq Hhzv Hf.
  unfold getFilterGain, is_type. rewrite Hty, Hhz, Hdb, Hq. simpl.
  unfold Js.log10. rewrite !log_with_pos by assumption.
  autorewrite with js.
  rewrite div_Fin by apply one_plus_exp_neq_0.
  autorewrite with js. reflexivity.
Qed.

(** The two logistic factors are complements. *)
Lemma logistic_complement n : 1 / (1 + exp n) + 1 / (1 + exp (- n)) = 1.
Proof.
  rewrite exp_Ropp. pose proof (exp_pos n) as Hpos.
  field. repeat split; lra.
Qed.

Lemma shelf_gains_add hzv dbv qv f :
  low_shelf_gain hzv dbv qv f + high_shelf_gain hzv dbv qv f = dbv.
Proof.
  unfold low_shelf_gain, high_shelf_gain.
  rewrite <- Rmult_plus_distr_l, logistic_complement. ring.
Qed.

(** C10.  A low-shelf and a high-shelf filter that share finite [hz > 0],
    [db] and [q] answer, at every frequency [f > 0], gains that add up to
    [db]: the logistic factors [1/(1+e^n)] and [1/(1+e^-n)] sum to 1, and
    the pair alone contributes [db] to the aggregate curve. *)
Theorem shelf_pair_flat (lo hi : Filter) (hzv dbv qv f : R) :
  type lo = "low-shelf"%string -> type hi = "high-shelf"%string ->
  hz lo = Js.Num (Js.Fin hzv) -> hz hi = Js.Num (Js.Fin hzv) ->
  db lo = Js.Num (Js.Fin dbv) -> db hi = Js.Num (Js.Fin dbv) ->
  q lo = Js.Num (Js.Fin qv) -> q hi = Js.Num (Js.Fin qv) ->
  0 < hzv -> 0 < f ->
  Js.add (getFilterGain lo (Js.Fin f)) (getFilterGain hi (Js.Fin f))
  = Js.Fin dbv /\
  getTotalGain [lo; hi] (Js.Fin f) = Js.Fin dbv /\
  (forall n, 1 / (1 + exp n) + 1 / (1 + exp (- n)) = 1).
Proof.
  intros Tlo Thi Hlo Hhi Dlo Dhi Qlo Qhi Hhzv Hf.
  assert (Hadd : Js.add (getFilterGain lo (Js.Fin f))
                   (getFilterGain hi (Js.Fin f)) = Js.Fin dbv).
  { rewrite (low_shelf_finite lo hzv dbv qv f) by assumption.
    rewrite (high_shelf_finite hi hzv dbv qv f) by assumption.
    rewrite add_Fin. f_equal. apply shelf_gains_add. }
  repeat split.
  - exact Hadd.
  - unfold getTotalGain. simpl. rewrite add_Fin_0_l. exact Hadd.
  - apply logistic_complement.
Qed.

Lemma shelf_pair_flat_witness :
  getTotalGain [low_shelf_B; high_shelf_B] (Js.Fin 440) = Js.Fin 6.
Proof.
  refine (proj1 (proj2 (shelf_pair_flat low_shelf_B high_shelf_B
                          100 6 0.707 440
                          eq_refl eq_refl eq_refl eq_refl eq_refl eq_refl
                          eq_refl eq_refl _ _))); lra.
Defined.

(** At the corner frequency a shelf answers half its gain: scenario B. *)
Lemma low_shelf_center hzv dbv qv : low_shelf_gain hzv dbv qv hzv = dbv / 2.
Proof.
  unfold low_shelf_gain, shelf_normalized.
  replace ((ln hzv / ln 10 - ln hzv / ln 10) * (qv * 5)) with 0 by ring.
  rewrite exp_0. field.
Qed.

Lemma low_shelf_B_center : getFilterGain low_shelf_B (Js.Fin 100) = Js.Fin 3.
Proof.
  rewrite (low_shelf_finite low_shelf_B 100 6 0.707 100)
    by (reflexivity || lra).
  f_equal. rewrite low_shelf_center. lra.
Qed.

End Shelves.

(** ** The custom (biquad) response *)

Section Custom.
Local Open Scope R_scope.

Lemma biquad_sq_nonneg c0 c1 c2 w : 0 <= biquad_sq c0 c1 c2 w.
Proof.
  unfold biquad_sq. cbv zeta.
  apply Rplus_le_le_0_compat; apply Rle_0_sqr.
Qed.

Lemma sqrt_Fin a : 0 <= a -> Js.sqrt (Js.Fin a) = Js.Fin (sqrt a).
Proof.
  intros Ha. unfold Js.sqrt. destruct (Rlt_dec a 0); [lra | reflexivity].
Qed.

Lemma seq_Fin a b :
  Js.seq (Js.Fin a) (Js.Fin b) = if Req_dec_T a b then true else false.
Proof. reflexivity. Qed.

Lemma custom_gain_magnitude (flt : Filter) (freq : Js.num) :
  type flt = "custom"%string ->
  getFilterGain flt freq
  = if Js.seq (magnitude flt freq) (Js.Fin 0) then Js.NInf
    else Js.mul (Js.Fin 20) (Js.log10 (magnitude flt freq)).
Proof.
  intros Hty. unfold getFilterGain, is_type. rewrite Hty. reflexivity.
Qed.

Lemma magnitude_finite (flt : Filter) (B0 B1 B2 A1 A2 f : R) :
  b0 flt = Js.Num (Js.Fin B0) -> b1 flt = Js.Num (Js.Fin B1) ->
  b2 flt = Js.Num (Js.Fin B2) ->
  a1 flt = Js.Num (Js.Fin A1) -> a2 flt = Js.Num (Js.Fin A2) ->
  biquad_sq 1 A1 A2 (biquad_w f) <> 0 ->
  magnitude flt (Js.Fin f)
  = Js.Fin (sqrt (biquad_sq B0 B1 B2 (biquad_w f))
            / sqrt (biquad_sq 1 A1 A2 (biquad_w f))).
Proof.
  intros H0 H1 H2 H3 H4 Hden.
  unfold magnitude. rewrite H0, H1, H2, H3, H4. simpl.
  unfold SAMPLE_RATE, Js.PI. autorewrite with js.
  rewrite div_Fin by lra. autorewrite with js.
  pose proof (biquad_sq_nonneg B0 B1 B2 (biquad_w f)) as Hn0.
  pose proof (biquad_sq_nonneg 1 A1 A2 (biquad_w f)) as Hd0.
  unfold biquad_sq, biquad_w in *. cbv zeta in *.
  rewrite !sqrt_Fin by assumption.
  apply div_Fin.
  intros Hs. apply Hden. apply sqrt_eq_0; assumption.
Qed.


Lemma biquad_sq_unit w : biquad_sq 1 0 0 w = 1.
Proof. unfold biquad_sq. ring. Qed.

Lemma biquad_sq_zero w : biquad_sq 0 0 0 w = 0.
Proof. unfold biquad_sq. ring. Qed.


End Custom.

(** ** Clamping *)

Section Clamp.
Local Open Scope R_scope.

Lemma Rmax_Rmin_clampR lo hi v :
  lo <= hi -> Rmax lo (Rmin hi v) = clampR lo hi v.
Proof.
  intros Hle. unfold clampR, Rmax, Rmin.
  destruct (Rlt_dec v lo), (Rlt_dec hi v), (Rle_dec hi v);
    try lra; destruct (Rle_dec lo hi); destruct (Rle_dec lo v); lra.
Qed.

Lemma max_min_clamp lo hi v :
  lo <= hi -> Js.max (Js.Fin lo) (Js.min (Js.Fin hi) v) = clamp lo hi v.
Proof.
  intros Hle. destruct v as [r | | |].
  - rewrite min_Fin, max_Fin. simpl. f_equal.
    apply Rmax_Rmin_clampR. assumption.
  - unfold Js.min, Js.max, Js.ltb. simpl.
    destruct (Rlt_dec lo hi); [reflexivity | f_equal; lra].
  - reflexivity.
  - reflexivity.
Qed.

Lemma clampR_bounds lo hi v : lo <= hi -> lo <= clampR lo hi v <= hi.
Proof.
  intros Hle. unfold clampR.
  destruct (Rlt_dec v lo); [lra |]. destruct (Rlt_dec hi v); lra.
Qed.

Lemma clampR_bounds_low lo hi v : v < lo -> clampR lo hi v = lo.
Proof.
  intros H. unfold clampR. destruct (Rlt_dec v lo); [reflexivity | lra].
Qed.

Lemma clampR_id lo hi v : lo <= v <= hi -> clampR lo hi v = v.
Proof.
  intros [H1 H2]. unfold clampR.
  destruct (Rlt_dec v lo); [lra |]. destruct (Rlt_dec hi v); lra.
Qed.

End Clamp.

(** ** The Q handles *)

Section QHandles.
Local Open Scope R_scope.

Lemma qPositions_finite (flt : Filter) (hzv qv : R) :
  hz flt = Js.Num (Js.Fin hzv) -> q flt = Js.Num (Js.Fin qv) ->
  0 < qv ->
  qPositions flt
  = (Js.Fin (hzv / (1 + 1 / qv)), Js.Fin (hzv * (1 + 1 / qv))).
Proof.
  intros Hhz Hq Hqv. unfold qPositions. rewrite Hhz, Hq. simpl.
  rewrite div_Fin by lra. autorewrite with js.
  assert (0 < 1 / qv) by (apply Rdiv_lt_0_compat; lra).
  rewrite div_Fin by lra. reflexivity.
Qed.

Lemma qDragQ_of_factor (hf : Js.num) (d : Z) (flt : Filter) (s : R) :
  qDrag_symmetryFactor hf d flt = Js.Fin s -> 1.001 <= s ->
  qDragQ hf d flt = Js.Fin (clampR 0.1 20 (1 / (s - 1))).
Proof.
  intros Hs Hge. unfold qDragQ. rewrite Hs. autorewrite with js.
  rewrite div_Fin by lra. autorewrite with js.
  f_equal. apply Rmax_Rmin_clampR. lra.
Qed.

Lemma symmetryFactor_right (flt : Filter) (hzv hf : R) :
  hz flt = Js.Num (Js.Fin hzv) -> hzv <> 0 ->
  qDrag_symmetryFactor (Js.Fin hf) 1 flt = Js.Fin (Rmax 1.001 (hf / hzv)).
Proof.
  intros Hhz Hne. unfold qDrag_symmetryFactor. rewrite Hhz. simpl.
  rewrite div_Fin by assumption. apply max_Fin.
Qed.

Lemma symmetryFactor_left (flt : Filter) (hzv hf : R) :
  hz flt = Js.Num (Js.Fin hzv) -> hf <> 0 ->
  qDrag_symmetryFactor (Js.Fin hf) 0 flt = Js.Fin (Rmax 1.001 (hzv / hf)).
Proof.
  intros Hhz Hne. unfold qDrag_symmetryFactor. rewrite Hhz. simpl.
  rewrite div_Fin by assumption. apply max_Fin.
Qed.



(** The inverse mapping undoes the forward one exactly. *)
Lemma q_roundtrip_exact (flt : Filter) (hzv qv : R) :
  hz flt = Js.Num (Js.Fin hzv) -> q flt = Js.Num (Js.Fin qv) ->
  0.1 <= qv <= 20 -> 0 < hzv ->
  qDragQ (snd (qPositions flt)) 1 flt = Js.Fin qv /\
  qDragQ (fst (qPositions flt)) 0 flt = Js.Fin qv.
Proof.
  intros Hhz Hq [Hq1 Hq2] Hhzv.
  rewrite (qPositions_finite flt hzv qv) by (assumption || lra). simpl.
  assert (Hinv : 0.05 <= 1 / qv).
  { apply Rmult_le_reg_r with qv; [lra |].
    replace (1 / qv * qv) with 1 by (field; lra). lra. }
  assert (Hback : 1 / (1 + 1 / qv - 1) = qv) by (field; lra).
  split.
  - rewrite (qDragQ_of_factor _ _ _ (1 + 1 / qv)).
    + rewrite Hback. f_equal. apply clampR_id. lra.
    + rewrite (symmetryFactor_right flt hzv) by (assumption || lra).
      f_equal. replace (hzv * (1 + 1 / qv) / hzv) with (1 + 1 / qv)
        by (field; lra).
      apply Rmax_right. lra.
    + lra.
  - rewrite (qDragQ_of_factor _ _ _ (1 + 1 / qv)).
    + rewrite Hback. f_equal. apply clampR_id. lra.
    + assert (Hpos : hzv / (1 + 1 / qv) <> 0).
      { apply Rgt_not_eq. apply Rdiv_lt_0_compat; lra. }
      rewrite (symmetryFactor_left flt hzv) by assumption.
      f_equal. replace (hzv / (hzv / (1 + 1 / qv))) with (1 + 1 / qv)
        by (field; repeat split; lra).
      apply Rmax_right. lra.
    + lra.
Qed.

(** C1.  For a filter with [q] in [0.1, 20] and [hz] in [20, 20000], the
    Q-handle frequencies of the forward mapping, fed back to the inverse
    Q-drag mapping (the right one as the right handle, the left one as
    the left handle), give a finite q within 1e-6 of the original. *)
Theorem q_roundtrip (flt : Filter) (hzv qv : R) :
  hz flt = Js.Num (Js.Fin hzv) -> q flt = Js.Num (Js.Fin qv) ->
  0.1 <= qv <= 20 -> 20 <= hzv <= 20000 ->
  exists qr ql : R,
    qDragQ (snd (qPositions flt)) 1 flt = Js.Fin qr /\
    Rabs (qr - qv) < 1 / 1000000 /\
    qDragQ (fst (qPositions flt)) 0 flt = Js.Fin ql /\
    Rabs (ql - qv) < 1 / 1000000.
Proof.
  intros Hhz Hq Hqv Hhzv.
  destruct (q_roundtrip_exact flt hzv qv Hhz Hq Hqv) as [Hr Hl]; [lra |].
  exists qv, qv.
  replace (qv - qv) with 0 by ring. rewrite Rabs_R0.
  repeat split; try assumption; lra.
Qed.

Lemma q_roundtrip_witness :
  exists qr ql : R,
    qDragQ (snd (qPositions filter_C)) 1 filter_C = Js.Fin qr /\
    Rabs (qr - 2) < 1 / 1000000 /\
    qDragQ (fst (qPositions filter_C)) 0 filter_C = Js.Fin ql /\
    Rabs (ql - 2) < 1 / 1000000.
Proof.
  refine (q_roundtrip filter_C 1000 2 eq_refl eq_refl _ _); lra.
Defined.

End QHandles.

(** ** Drag handlers *)

Section DragProperties.

Variable scaleLog scaleLinear : d3.ScaleCtor.
Variable clientWidth : Z.
Variable selectedId : Z.

Local Abbreviation xS := (xScale scaleLog clientWidth).
Local Abbreviation yS := (yScale scaleLinear).
Local Abbreviation handleDragF :=
  (handleDrag_filter scaleLog scaleLinear clientWidth).
Local Abbreviation qDragF := (qDrag_filter scaleLog clientWidth).
Local Abbreviation handleDragS :=
  (handleDrag_drag scaleLog scaleLinear clientWidth selectedId).
Local Abbreviation qDragS :=
  (qDrag_drag scaleLog scaleLinear clientWidth selectedId).
Local Abbreviation curves := (updateCurves scaleLog clientWidth selectedId).
Local Abbreviation handlesOf :=
  (updateHandles scaleLog scaleLinear clientWidth).

Lemma internal_throttled now v (st : State) :
  internalFilters (inner (throttledFiltersUpdate now v st))
  = internalFilters (inner st).
Proof.
  unfold throttledFiltersUpdate, throttle.
  destruct (inThrottle st); reflexivity.
Qed.

Lemma internal_updateCurves c :
  internalFilters (curves c) = internalFilters c.
Proof.
  unfold updateCurves.
  destruct (selectedFilter selectedId c) as [[i f] |]; reflexivity.
Qed.

Lemma internal_updateHandles sf c :
  internalFilters (handlesOf sf c) = internalFilters c.
Proof.
  unfold updateHandles. destruct (internalFilters c !! sf); reflexivity.
Qed.

Lemma handleDrag_internal now sf x y (st : State) :
  internalFilters (inner (handleDragS now sf x y st))
  = alter (handleDragF x y) sf (internalFilters (inner st)).
Proof.
  unfold handleDrag_drag. rewrite internal_throttled. simpl.
  rewrite internal_updateCurves, internal_updateHandles. reflexivity.
Qed.

Lemma qDrag_internal now sf x d (st : State) :
  internalFilters (inner (qDragS now sf x d st))
  = alter (qDragF x d) sf (internalFilters (inner st)).
Proof.
  unfold qDrag_drag. rewrite internal_throttled. simpl.
  rewrite internal_updateCurves, internal_updateHandles. reflexivity.
Qed.

(** The filter a drag behaviour is bound to. *)
Lemma dragTarget_Some c sf :
  dragTarget selectedId c = Some sf ->
  exists flt, internalFilters c !! sf = Some flt /\
              id flt = selectedId /\ type flt <> "custom"%string.
Proof.
  unfold dragTarget, selectedFilter.
  destruct (list_find _ _) as [[i f] |] eqn:Hfind; [| discriminate].
  destruct (is_type f "custom") eqn:Hty; [discriminate |].
  intros [= <-]. apply list_find_Some in Hfind as (Hl & Hid & _).
  exists f. repeat split; try assumption.
  intros Hc. unfold is_type in Hty. rewrite Hc in Hty. discriminate.
Qed.

Lemma map_alter_frame {B : Type} (proj : Filter -> B) (g : Filter -> Filter)
    (i : nat) (l : list Filter) :
  (forall f, proj (g f) = proj f) ->
  map proj (alter g i l) = map proj l.
Proof.
  intros Hg. revert i. induction l as [| f l IH]; intros [| i]; simpl;
    try reflexivity.
  - rewrite Hg. reflexivity.
  - f_equal. apply IH.
Qed.

(** C4.  A drag of the main handle, bound to the selected filter (which is
    not a custom one), at the screen position [(x, y)] leaves that filter
    with [hz' = clamp (invertX x, 20, 20000)] and, with [d = invertY y],
    [db' = clamp (d, -25, 25)] when it is a peaking filter and
    [db' = clamp (d * 2, -25, 25)] when it is a shelf; its q, id, type and
    coefficients, and every other filter, stay as they were. *)
Theorem main_drag_update (now : Z) (sf : nat) (x y : Js.num) (st : State) :
  dragTarget selectedId (inner st) = Some sf ->
  exists flt flt' : Filter,
    internalFilters (inner st) !! sf = Some flt /\
    id flt = selectedId /\ type flt <> "custom"%string /\
    internalFilters (inner (handleDragS now sf x y st)) !! sf = Some flt' /\
    (forall j, j <> sf ->
       internalFilters (inner (handleDragS now sf x y st)) !! j
       = internalFilters (inner st) !! j) /\
    hz flt' = Js.Num (clamp 20 20000 (d3.invert xS x)) /\
    (type flt = "peaking"%string ->
     db flt' = Js.Num (clamp (-25) 25 (d3.invert yS y))) /\
    (type flt = "low-shelf"%string \/ type flt = "high-shelf"%string ->
     db flt' = Js.Num (clamp (-25) 25
                         (Js.mul (d3.invert yS y) (Js.Fin 2)))) /\
    q flt' = q flt /\ id flt' = id flt /\ type flt' = type flt /\
    (b0 flt', b1 flt', b2 flt', a1 flt', a2 flt')
    = (b0 flt, b1 flt, b2 flt, a1 flt, a2 flt).
Proof.
  intros Htarget.
  destruct (dragTarget_Some _ _ Htarget) as (flt & Hl & Hid & Hty).
  exists flt, (handleDragF x y flt).
  rewrite handleDrag_internal.
  split; [exact Hl |]. split; [exact Hid |]. split; [exact Hty |].
  split; [rewrite list_lookup_alter_eq, Hl; reflexivity |].
  split; [intros j Hj; apply list_lookup_alter_ne; congruence |].
  unfold handleDrag_filter.
  assert (Hx : (20 <= 20000)%R) by lra.
  assert (Hy : (-25 <= 25)%R) by lra.
  rewrite !max_min_clamp by assumption.
  unfold is_type. simpl type.
  split; [destruct (String.eqb _ _); reflexivity |].
  split.
  { intros Hp. rewrite Hp. reflexivity. }
  split.
  { intros [Hs | Hs]; rewrite Hs; reflexivity. }
  destruct (String.eqb _ _); repeat split; reflexivity.
Qed.

(** C9.  A drag of a Q handle assigns the q of the filter it is bound to
    and nothing else: the hz and the db of every filter, like its id,
    type and coefficients, are what they were, and the other filters are
    untouched. *)
Theorem qDrag_frame (now : Z) (sf : nat) (x : Js.num) (d : Z) (st : State) :
  let before := internalFilters (inner st) in
  let after := internalFilters (inner (qDragS now sf x d st)) in
  map hz after = map hz before /\
  map db after = map db before /\
  map id after = map id before /\
  map type after = map type before /\
  map (fun f => (b0 f, b1 f, b2 f, a1 f, a2 f)) after
  = map (fun f => (b0 f, b1 f, b2 f, a1 f, a2 f)) before /\
  after
  = alter (fun f => set_q (qDragQ (d3.invert xS (Js.add x (Js.Fin 12))) d f) f)
      sf before /\
  (forall j, j <> sf -> after !! j = before !! j).
Proof.
  intros before after. subst before after. rewrite qDrag_internal.
  repeat split; try (apply map_alter_frame; intros f; reflexivity).
  intros j Hj. apply list_lookup_alter_ne. congruence.
Qed.

End DragProperties.

Lemma main_drag_update_witness :
  exists flt' : Filter,
    internalFilters
      (inner (handleDrag_drag d3.scaleLog d3.scaleLinear 800 1 0 0%nat
                (Js.Fin 350) (Js.Fin 155) state_A)) !! 0%nat = Some flt' /\
    hz flt'
    = Js.Num (clamp 20 20000
                (d3.invert (xScale d3.scaleLog 800) (Js.Fin 350))) /\
    q flt' = Js.Num (Js.Fin 1).
Proof.
  destruct (main_drag_update d3.scaleLog d3.scaleLinear 800 1 0 0%nat
              (Js.Fin 350) (Js.Fin 155) state_A eq_refl)
    as (flt & flt' & Hl & _ & _ & Hl' & _ & Hhz & _ & _ & Hq & _).
  exists flt'. injection Hl as <-.
  split; [exact Hl' |]. split; [exact Hhz | exact Hq].
Defined.

(** ** The sampled curves *)

Section Curves.

Variable scaleLog scaleLinear : d3.ScaleCtor.
Variable clientWidth : Z.
Variable selectedId : Z.

Local Abbreviation curves := (updateCurves scaleLog clientWidth selectedId).
Local Abbreviation current := (up_to_date scaleLog clientWidth selectedId).

(** The pixel columns [d3.range(0, W, 2)]: 0, 2, 4, ... below [W]. *)
Lemma range_step2 (W : Z) :
  d3.range 0 W 2
  = map (fun k => (2 * Z.of_nat k)%Z) (seq 0 (Z.to_nat ((W + 1) / 2))).
Proof.
  unfold d3.range.
  assert (Hceil : (- (- (W - 0) / 2) = (W + 1) / 2)%Z)
    by (Z.div_mod_to_equations; lia).
  rewrite Hceil.
  replace (Z.to_nat (Z.max 0 ((W + 1) / 2)))
    with (Z.to_nat ((W + 1) / 2)) by lia.
  apply map_ext. intros k. lia.
Qed.

Lemma columns_spec (W x : Z) :
  In x (map (fun k => (2 * Z.of_nat k)%Z) (seq 0 (Z.to_nat ((W + 1) / 2))))
  <-> (exists k : Z, x = (2 * k)%Z) /\ (0 <= x < W)%Z.
Proof.
  rewrite in_map_iff. split.
  - intros (k & Hx & Hk). apply in_seq in Hk. split; [eauto |].
    revert Hk. Z.div_mod_to_equations. lia.
  - intros ((k & Hx) & Hr). exists (Z.to_nat k). split; [lia |].
    apply in_seq. Z.div_mod_to_equations. lia.
Qed.

Lemma updateCurves_idem c : current (curves c).
Proof.
  unfold up_to_date, updateCurves, selectedFilter.
  destruct (list_find _ (internalFilters c)) as [[i f] |] eqn:Hf;
    simpl; rewrite Hf; split; reflexivity.
Qed.

Lemma up_to_date_set_filters v c :
  current c -> current (set_filters v c).
Proof. intros H. exact H. Qed.

Lemma up_to_date_throttled now v (st : State) :
  current (inner st) ->
  current (inner (throttledFiltersUpdate now v st)).
Proof.
  intros H. unfold throttledFiltersUpdate, throttle.
  destruct (inThrottle st); simpl; [exact H |].
  apply up_to_date_set_filters. exact H.
Qed.

(** C6.  A curve is sampled at the pixel columns 0, 2, 4, ... below the
    inner width (the container's width less the side margins), each point
    pairing the frequency that the logarithmic scale of domain 10 Hz to
    20000 Hz inverts the column to with the gain there: the total gain of
    the filters for the full curve, the selected filter's gain for the
    highlight curve, which is absent when no filter is selected.  Drawing
    reads nothing of what was drawn before, and both drag handlers and
    [drawChart] end with the curves of the filters as they then are. *)
Theorem sampled_curve (c : Component) :
  let W := (clientWidth - 60 - 40)%Z in
  let xs := scaleLog (Js.Fin 10, Js.Fin 20000) (Js.Fin 0, Js.Fin (IZR W)) in
  let columns :=
    map (fun k => (2 * Z.of_nat k)%Z) (seq 0 (Z.to_nat ((W + 1) / 2))) in
  let point (gainAt : Js.num -> Js.num) (x : Z) :=
    Sample.mk (d3.invert xs (Js.Fin (IZR x)))
              (gainAt (d3.invert xs (Js.Fin (IZR x)))) in
  (forall x : Z,
     In x columns <-> (exists k : Z, x = (2 * k)%Z) /\ (0 <= x < W)%Z) /\
  totalCurve (curves c)
  = map (point (getTotalGain (internalFilters c))) columns /\
  selectedArea (curves c)
  = match selectedFilter selectedId c with
    | Some (_, sf) => Some (map (point (getFilterGain sf)) columns)
    | None => None
    end /\
  (forall total selected, curves (set_curves total selected c) = curves c) /\
  (forall now sf x y (st : State),
     up_to_date scaleLog clientWidth selectedId
       (inner (handleDrag_drag scaleLog scaleLinear clientWidth selectedId
                 now sf x y st))) /\
  (forall now sf x d (st : State),
     up_to_date scaleLog clientWidth selectedId
       (inner (qDrag_drag scaleLog scaleLinear clientWidth selectedId
                 now sf x d st))) /\
  up_to_date scaleLog clientWidth selectedId
    (drawChart scaleLog scaleLinear clientWidth selectedId c).
Proof.
  intros W xs columns point.
  assert (Hcols : d3.range 0 (innerWidth clientWidth) 2 = columns)
    by apply range_step2.
  split; [intros x; apply columns_spec |].
  split.
  { unfold updateCurves, sampleCurve. rewrite Hcols.
    destruct (selectedFilter selectedId c) as [[i f] |]; reflexivity. }
  split.
  { unfold updateCurves, sampleCurve. rewrite Hcols.
    destruct (selectedFilter selectedId c) as [[i f] |]; reflexivity. }
  split.
  { intros total selected. unfold updateCurves, selectedFilter. simpl.
    destruct (list_find _ (internalFilters c)) as [[i f] |]; reflexivity. }
  split.
  { intros now sf x y st. unfold handleDrag_drag.
    apply up_to_date_throttled. simpl. apply updateCurves_idem. }
  split.
  { intros now sf x d st. unfold qDrag_drag.
    apply up_to_date_throttled. simpl. apply updateCurves_idem. }
  unfold drawChart. cbv zeta.
  destruct (dragTarget selectedId _); apply updateCurves_idem.
Qed.

End Curves.

(** ** Propagation to the parent *)

Section Propagation.

Variable scaleLog scaleLinear : d3.ScaleCtor.
Variable clientWidth : Z.
Variable selectedId : Z.

Local Abbreviation step :=
  (exec scaleLog scaleLinear clientWidth selectedId).
Local Abbreviation steps :=
  (run scaleLog scaleLinear clientWidth selectedId).
Local Abbreviation well_scheduled :=
  (scheduled scaleLog scaleLinear clientWidth selectedId).

Lemma throttle_open {A S : Type} (func : A -> S -> S) limit now args
    (t : Throttled S) :
  inThrottle t = false ->
  throttle func limit now args t
  = mkThrottled true (timers t ++ [(now + limit)%Z]) (func args (inner t)).
Proof. intros H. unfold throttle. rewrite H. reflexivity. Qed.

Lemma throttle_closed {A S : Type} (func : A -> S -> S) limit now args
    (t : Throttled S) :
  inThrottle t = true -> throttle func limit now args t = t.
Proof. intros H. unfold throttle. rewrite H. reflexivity. Qed.

Lemma filters_updateCurves c :
  filters (updateCurves scaleLog clientWidth selectedId c) = filters c.
Proof.
  unfold updateCurves.
  destruct (selectedFilter selectedId c) as [[i f] |]; reflexivity.
Qed.

Lemma filters_updateHandles sf c :
  filters (updateHandles scaleLog scaleLinear clientWidth sf c) = filters c.
Proof.
  unfold updateHandles. destruct (internalFilters c !! sf); reflexivity.
Qed.

(** A change made while the throttle is open is written at once and
    starts a window of 50 ms. *)
Lemma change_forwarded sf now k (st : State) :
  is_change k = true -> inThrottle st = false ->
  filters (inner (step sf now k st))
  = json_clone (internalFilters (inner (step sf now k st))) /\
  inThrottle (step sf now k st) = true /\
  timers (step sf now k st) = timers st ++ [(now + 50)%Z].
Proof.
  intros Hk Hopen.
  destruct k; try discriminate; simpl;
    unfold handleDrag_drag, qDrag_drag, throttledFiltersUpdate;
    rewrite throttle_open by exact Hopen; simpl; repeat split; reflexivity.
Qed.

(** A change made while the window lasts is not written, and nothing is
    kept of it for later. *)
Lemma change_dropped sf now k (st : State) :
  is_change k = true -> inThrottle st = true ->
  filters (inner (step sf now k st)) = filters (inner st) /\
  inThrottle (step sf now k st) = true /\
  timers (step sf now k st) = timers st.
Proof.
  intros Hk Hclosed.
  destruct k; try discriminate; simpl;
    unfold handleDrag_drag, qDrag_drag, throttledFiltersUpdate;
    rewrite throttle_closed by exact Hclosed; simpl;
    rewrite filters_updateCurves, filters_updateHandles;
    repeat split; first [reflexivity | exact Hclosed].
Qed.

(** Before the earliest pending deadline no timer can fire, so the
    throttle stays closed and only the end of the drag writes. *)
Lemma window_closed sf (T : Z) (sched : list (Z * task)) :
  forall (from : Z) (st : State),
    inThrottle st = true ->
    Forall (fun d => (T <= d)%Z) (timers st) ->
    well_scheduled sf from sched st ->
    Forall (fun tk => (fst tk < T)%Z /\ snd tk <> DragEnd) sched ->
    filters (inner (steps sf sched st)) = filters (inner st) /\
    inThrottle (steps sf sched st) = true /\
    timers (steps sf sched st) = timers st.
Proof.
  induction sched as [| [now k] rest IH]; intros from st Hclosed Hdl Hs Hall.
  - simpl. repeat split; first [reflexivity | exact Hclosed].
  - simpl in Hs. destruct Hs as (_ & Hk & Hrest).
    inversion Hall as [| ? ? [Hnow Hne] Hall']; subst. simpl in Hnow, Hne.
    assert (Hstep : filters (inner (step sf now k st)) = filters (inner st) /\
                    inThrottle (step sf now k st) = true /\
                    timers (step sf now k st) = timers st).
    { destruct k.
      - repeat split; first [reflexivity | exact Hclosed].
      - apply change_dropped; [reflexivity | exact Hclosed].
      - apply change_dropped; [reflexivity | exact Hclosed].
      - contradiction.
      - destruct Hk as [Hin Hle].
        apply list_elem_of_In in Hin.
        rewrite Forall_forall in Hdl. apply Hdl in Hin. lia.
      - simpl. unfold watch_filters, drawChart.
        destruct (isDragging (inner st));
          [repeat split; first [reflexivity | exact Hclosed] |].
        cbv zeta. destruct (dragTarget _ _);
          rewrite filters_updateCurves, ?filters_updateHandles;
          repeat split; first [reflexivity | exact Hclosed]. }
    destruct Hstep as (Hf & Ht & Htm).
    simpl. destruct (IH now (step sf now k st)) as (Hf' & Ht' & Htm').
    + exact Ht.
    + rewrite Htm. exact Hdl.
    + exact Hrest.
    + exact Hall'.
    + rewrite Hf', Ht', Htm'. repeat split; assumption.
Qed.

(** After a change written at [now] from an open throttle with no timer
    pending, whatever is scheduled before [now + 50] short of the end of
    the drag leaves the parent with that first change. *)
Lemma first_change_only sf (st : State) now k sched :
  is_change k = true -> inThrottle st = false -> timers st = [] ->
  well_scheduled sf now sched (step sf now k st) ->
  Forall (fun tk => (fst tk < now + 50)%Z /\ snd tk <> DragEnd) sched ->
  filters (inner (steps sf ((now, k) :: sched) st))
  = json_clone (internalFilters (inner (step sf now k st))) /\
  timers (steps sf ((now, k) :: sched) st) = [(now + 50)%Z].
Proof.
  intros Hk Hopen Hnone Hs Hall.
  destruct (change_forwarded sf now k st Hk Hopen) as (Hf & Ht & Htm).
  rewrite Hnone in Htm. simpl in Htm.
  destruct (window_closed sf (now + 50) sched now (step sf now k st))
    as (Hf' & _ & Htm'); try assumption.
  - rewrite Htm. constructor; [lia | constructor].
  - simpl. rewrite Hf', Htm'. split; assumption.
Qed.

(** C7.  Changes made during a drag reach the parent through a
    leading-edge throttle of 50 ms.  A change while the throttle is open
    is written at once and closes it until the timer set for 50 ms later
    fires.  Until that deadline no schedule of changes writes anything:
    they are dropped, and the timer's callback itself writes nothing, so
    none was queued.  Of three changes at 0, 10 and 20 ms from an open
    throttle only the first is written.  The end of a drag writes the
    working copy whatever the throttle's state. *)
Theorem throttled_propagation (sf : nat) (st : State) :
  (forall now k,
     is_change k = true -> inThrottle st = false ->
     filters (inner (step sf now k st))
     = json_clone (internalFilters (inner (step sf now k st))) /\
     inThrottle (step sf now k st) = true /\
     timers (step sf now k st) = timers st ++ [(now + 50)%Z]) /\
  (forall now k sched,
     is_change k = true -> inThrottle st = false -> timers st = [] ->
     well_scheduled sf now sched (step sf now k st) ->
     Forall (fun tk => (fst tk < now + 50)%Z /\ snd tk <> DragEnd) sched ->
     filters (inner (steps sf ((now, k) :: sched) st))
     = json_clone (internalFilters (inner (step sf now k st)))) /\
  (forall now deadline,
     filters (inner (step sf now (Timeout deadline) st)) = filters (inner st) /\
     inThrottle (step sf now (Timeout deadline) st) = false) /\
  (forall k0 k10 k20,
     is_change k0 = true -> is_change k10 = true -> is_change k20 = true ->
     inThrottle st = false -> timers st = [] ->
     filters (inner (steps sf [(0, k0); (10, k10); (20, k20)]%Z st))
     = json_clone (internalFilters (inner (step sf 0 k0 st))) /\
     timers (steps sf [(0, k0); (10, k10); (20, k20)]%Z st) = [50%Z]) /\
  (forall now,
     filters (inner (step sf now DragEnd st)) = internalFilters (inner st) /\
     internalFilters (inner (step sf now DragEnd st))
     = internalFilters (inner st) /\
     isDragging (inner (step sf now DragEnd st)) = false).
Proof.
  pose proof (first_change_only sf st) as Hwin.
  split; [intros now k; apply change_forwarded |].
  split; [intros now k sched Hk Ho Hn Hs Ha;
          apply (Hwin now k sched Hk Ho Hn Hs Ha) |].
  split; [intros now deadline; split; reflexivity |].
  split; [| intros now; repeat split; reflexivity].
  intros k0 k10 k20 H0 H10 H20 Hopen Hnone.
  apply (Hwin 0%Z k0 [(10, k10); (20, k20)]%Z H0 Hopen Hnone).
  - simpl. destruct k10, k20; try discriminate; repeat split; lia.
  - repeat constructor; simpl; try lia;
      intros Hc; rewrite Hc in *; discriminate.
Qed.

End Propagation.

(** ** The scenarios on d3's scales *)

Section OnD3.
Local Open Scope R_scope.

(** The logarithmic x scale inverts a pixel column by interpolating
    between the logarithms of 10 and 20000. *)
Lemma d3_xScale_invert (W : Z) (x : R) :
  0 < IZR W ->
  d3.invert (d3.scaleLog (Js.Fin 10, Js.Fin 20000) (Js.Fin 0, Js.Fin (IZR W)))
    (Js.Fin x)
  = Js.Fin (exp (ln 10 * (1 - (x - 0) / (IZR W - 0))
                 + ln 20000 * ((x - 0) / (IZR W - 0)))).
Proof.
  intros HW. unfold d3.scaleLog. simpl d3.invert.
  unfold d3.bimap. simpl fst. simpl snd.
  replace (Js.ltb (Js.Fin (IZR W)) (Js.Fin 0)) with false
    by (unfold Js.ltb; destruct (Rlt_dec _ _); [lra | reflexivity]).
  unfold d3.interpolateNumber, d3.normalize, Js.log.
  rewrite !log_with_pos by lra. rewrite sub_Fin.
  destruct (Req_dec_T (IZR W - 0) 0) as [He | Hne]; [lra |].
  rewrite sub_Fin, div_Fin by assumption.
  autorewrite with js. reflexivity.
Qed.

Lemma d3_xScale_invert_left :
  d3.invert (xScale d3.scaleLog 800) (Js.Fin 0) = Js.Fin 10.
Proof.
  unfold xScale. change (innerWidth 800) with 700%Z.
  rewrite d3_xScale_invert by lra. f_equal.
  replace (ln 10 * (1 - (0 - 0) / (700 - 0)) + ln 20000 * ((0 - 0) / (700 - 0)))
    with (ln 10) by (field; lra).
  apply exp_ln. lra.
Qed.

Lemma d3_xScale_invert_right :
  d3.invert (xScale d3.scaleLog 800) (Js.Fin 700) = Js.Fin 20000.
Proof.
  unfold xScale. change (innerWidth 800) with 700%Z.
  rewrite d3_xScale_invert by lra. f_equal.
  replace (ln 10 * (1 - (700 - 0) / (700 - 0))
           + ln 20000 * ((700 - 0) / (700 - 0)))
    with (ln 20000) by (field; lra).
  apply exp_ln. lra.
Qed.

Lemma handleDrag_filter_hz sl sc cw x y flt :
  hz (handleDrag_filter sl sc cw x y flt)
  = Js.Num (clamp 20 20000 (d3.invert (xScale sl cw) x)).
Proof.
  unfold handleDrag_filter. rewrite !max_min_clamp by lra.
  destruct (is_type _ _); reflexivity.
Qed.

(** Scenario D on the chart 800 pixels wide: the handle is dragged to the
    left edge at 0 ms and to the right edge at 10 and 20 ms.  The working
    copy follows to 20000 Hz; the parent still holds the 20 Hz of the
    first change. *)
Lemma scenario_D_observed :
  let st' :=
    run d3.scaleLog d3.scaleLinear 800 1 0%nat
      [(0, HandleDrag (Js.Fin 0) (Js.Fin 155));
       (10, HandleDrag (Js.Fin 700) (Js.Fin 155));
       (20, HandleDrag (Js.Fin 700) (Js.Fin 155))]%Z state_A in
  map hz (filters (inner st')) = [Js.Num (Js.Fin 20)] /\
  map hz (internalFilters (inner st')) = [Js.Num (Js.Fin 20000)].
Proof.
  intros st'. split.
  - subst st'.
    destruct (first_change_only d3.scaleLog d3.scaleLinear 800 1 0%nat
                state_A 0%Z (HandleDrag (Js.Fin 0) (Js.Fin 155))
                [(10, HandleDrag (Js.Fin 700) (Js.Fin 155));
                 (20, HandleDrag (Js.Fin 700) (Js.Fin 155))]%Z)
      as [Hf _]; try reflexivity.
    + simpl. repeat split; lia.
    + repeat constructor; simpl; try lia; discriminate.
    + rewrite Hf. unfold exec. rewrite handleDrag_internal.
      change (internalFilters (inner state_A)) with [peaking_A].
      cbn [alter list_alter json_clone map json_filter hz].
      rewrite handleDrag_filter_hz, d3_xScale_invert_left.
      cbn [clamp Js.json_value]. do 3 f_equal. apply clampR_bounds_low; lra.
  - subst st'. cbn [run exec]. rewrite !handleDrag_internal.
    change (internalFilters (inner state_A)) with [peaking_A].
    cbn [alter list_alter map].
    rewrite handleDrag_filter_hz, d3_xScale_invert_right.
    cbn [clamp]. do 3 f_equal. apply clampR_id; lra.
Qed.

End OnD3.

(** * Further properties *)

(** ** Shape of the responses *)

Section ResponseShape.
Local Open Scope R_scope.

Lemma peaking_den_ge_1 x : 1 <= 1 + 4 * x ^ 2.
Proof. pose proof (pow2_ge_0 x). lra. Qed.

Lemma peaking_gain_unclamped hzv dbv qv f :
  peaking_gain hzv dbv qv f
  = dbv / (1 + 4 * (ln (f / hzv) / ln 2 * qv) ^ 2).
Proof.
  unfold peaking_gain. set (x := ln (f / hzv) / ln 2 * qv).
  pose proof (peaking_den_ge_1 x) as HD.
  assert (Hinv : 0 < / (1 + 4 * x ^ 2)) by (apply Rinv_0_lt_compat; lra).
  destruct (Rlt_dec 0 dbv) as [Hpos | Hneg].
  - apply Rmax_right. unfold Rdiv. nra.
  - apply Rmin_right. unfold Rdiv. nra.
Qed.

(** X1.  The peaking response never leaves the band between 0 and [db]: the
    clamp of the source never acts on it. *)
Theorem peaking_bounded (flt : Filter) (hzv dbv qv f : R) :
  type flt = "peaking"%string ->
  hz flt = Js.Num (Js.Fin hzv) ->
  db flt = Js.Num (Js.Fin dbv) ->
  q flt = Js.Num (Js.Fin qv) ->
  0 < hzv -> 0 < qv -> 0 < f ->
  exists g : R,
    getFilterGain flt (Js.Fin f) = Js.Fin g /\
    g = dbv / (1 + 4 * (ln (f / hzv) / ln 2 * qv) ^ 2) /\
    (0 <= dbv -> 0 <= g <= dbv) /\
    (dbv <= 0 -> dbv <= g <= 0).
Proof.
  intros Hty Hhz Hdb Hq Hhzv Hqv Hf.
  exists (peaking_gain hzv dbv qv f).
  split; [apply peaking_finite; assumption |].
  rewrite peaking_gain_unclamped.
  set (x := ln (f / hzv) / ln 2 * qv).
  pose proof (peaking_den_ge_1 x) as HD.
  assert (Hinv : 0 < / (1 + 4 * x ^ 2) <= 1).
  { split; [apply Rinv_0_lt_compat; lra |].
    rewrite <- Rinv_1. apply Rinv_le_contravar; lra. }
  split; [reflexivity |].
  unfold Rdiv. split; intros Hs; nra.
Qed.

Lemma peaking_bounded_witness :
  exists g : R,
    getFilterGain peaking_A (Js.Fin 250) = Js.Fin g /\
    g = 6 / (1 + 4 * (ln (250 / 1000) / ln 2 * 1) ^ 2) /\
    (0 <= 6 -> 0 <= g <= 6) /\
    (6 <= 0 -> 6 <= g <= 0).
Proof.
  refine (peaking_bounded peaking_A 1000 6 1 250
            eq_refl eq_refl eq_refl eq_refl _ _ _); lra.
Defined.

Lemma peaking_gain_mirror hzv dbv qv r :
  0 < hzv -> 0 < r ->
  peaking_gain hzv dbv qv (hzv * r) = peaking_gain hzv dbv qv (hzv / r).
Proof.
  intros Hhzv Hr. rewrite !peaking_gain_unclamped.
  replace (hzv * r / hzv) with r by (field; lra).
  replace (hzv / r / hzv) with (/ r) by (field; lra).
  rewrite ln_Rinv by assumption.
  f_equal. f_equal. f_equal. unfold Rdiv. ring.
Qed.

(** X2.  The peaking response is symmetric in log-frequency around [hz]:
    for parameters in range ([hz] in [20, 20000], [db] in [-25, 25], q in
    [0.1, 20]) and a ratio [r] between 1 and 1000, the gain [r] times
    above the centre and the gain [r] times below it are finite and
    within 1e-9 dB of each other. *)
Theorem peaking_symmetric (flt : Filter) (hzv dbv qv r : R) :
  type flt = "peaking"%string ->
  hz flt = Js.Num (Js.Fin hzv) ->
  db flt = Js.Num (Js.Fin dbv) ->
  q flt = Js.Num (Js.Fin qv) ->
  20 <= hzv <= 20000 -> -25 <= dbv <= 25 -> 0.1 <= qv <= 20 ->
  1 <= r <= 1000 ->
  exists up down : R,
    getFilterGain flt (Js.Fin (hzv * r)) = Js.Fin up /\
    getFilterGain flt (Js.Fin (hzv / r)) = Js.Fin down /\
    Rabs (up - down) <= 1 / 1000000000.
Proof.
  intros Hty Hhz Hdb Hq Hhzv Hdbv Hqv Hr.
  assert (H0 : 0 < hzv) by lra. assert (Hq0 : 0 < qv) by lra.
  assert (Hr0 : 0 < r) by lra.
  assert (Hup : 0 < hzv * r) by (apply Rmult_lt_0_compat; assumption).
  assert (Hdn : 0 < hzv / r) by (apply Rdiv_lt_0_compat; assumption).
  exists (peaking_gain hzv dbv qv (hzv * r)),
         (peaking_gain hzv dbv qv (hzv / r)).
  split; [apply peaking_finite; assumption |].
  split; [apply peaking_finite; assumption |].
  rewrite peaking_gain_mirror by assumption.
  replace (peaking_gain hzv dbv qv (hzv / r)
           - peaking_gain hzv dbv qv (hzv / r)) with 0 by ring.
  rewrite Rabs_R0. lra.
Qed.

Lemma peaking_symmetric_witness :
  exists up down : R,
    getFilterGain peaking_A (Js.Fin (1000 * 3)) = Js.Fin up /\
    getFilterGain peaking_A (Js.Fin (1000 / 3)) = Js.Fin down /\
    Rabs (up - down) <= 1 / 1000000000.
Proof.
  refine (peaking_symmetric peaking_A 1000 6 1 3
            eq_refl eq_refl eq_refl eq_refl _ _ _ _); lra.
Defined.

End ResponseShape.

Section ShelfShape.
Local Open Scope R_scope.

Lemma high_shelf_center hzv dbv qv : high_shelf_gain hzv dbv qv hzv = dbv / 2.
Proof.
  unfold high_shelf_gain, shelf_normalized.
  replace (- ((ln hzv / ln 10 - ln hzv / ln 10) * (qv * 5))) with 0 by ring.
  rewrite exp_0. field.
Qed.

(** X3.  The main handle sits on the selected filter's own curve: the value
    [updateHandles] draws it at is the filter's gain at its frequency, [db]
    for a peaking filter and [db / 2] for a shelf. *)
Theorem handle_on_curve (flt : Filter) (hzv dbv qv : R) :
  type flt = "peaking"%string \/ type flt = "low-shelf"%string
  \/ type flt = "high-shelf"%string ->
  hz flt = Js.Num (Js.Fin hzv) ->
  db flt = Js.Num (Js.Fin dbv) ->
  q flt = Js.Num (Js.Fin qv) ->
  0 < hzv -> (type flt = "peaking"%string -> 0 < qv) ->
  getFilterGain flt (Js.to_num (hz flt)) = handleYValue flt.
Proof.
  intros Hty Hhz Hdb Hq Hhzv Hqv.
  unfold handleYValue, is_type. rewrite Hhz. simpl Js.to_num.
  destruct Hty as [Hty | [Hty | Hty]].
  - rewrite (peaking_finite flt hzv dbv qv hzv) by auto.
    rewrite Hty, Hdb. simpl. f_equal. apply peaking_gain_center. assumption.
  - rewrite (low_shelf_finite flt hzv dbv qv hzv) by assumption.
    rewrite Hty, Hdb. simpl. rewrite div_Fin by lra.
    f_equal. apply low_shelf_center.
  - rewrite (high_shelf_finite flt hzv dbv qv hzv) by assumption.
    rewrite Hty, Hdb. simpl. rewrite div_Fin by lra.
    f_equal. apply high_shelf_center.
Qed.

Lemma handle_on_curve_witness :
  getFilterGain low_shelf_B (Js.to_num (hz low_shelf_B))
  = handleYValue low_shelf_B.
Proof.
  refine (handle_on_curve low_shelf_B 100 6 0.707
            (or_intror (or_introl eq_refl)) eq_refl eq_refl eq_refl _ _).
  - lra.
  - intros H. discriminate H.
Defined.

Lemma logistic_bounds n : 0 <= 1 / (1 + exp n) <= 1.
Proof.
  pose proof (exp_pos n) as Hn.
  assert (Hi : 0 < / (1 + exp n)) by (apply Rinv_0_lt_compat; lra).
  assert (Hone : / (1 + exp n) * (1 + exp n) = 1) by (field; lra).
  unfold Rdiv. rewrite Rmult_1_l. split; nra.
Qed.

(** X4.  A shelf never overshoots its gain: for a low or high shelf with
    finite parameters, [hz > 0], q between 0 and 20 and any frequency
    [f > 0], the answer is a finite number between 0 and [db], both
    included. *)
Theorem shelf_bounded (flt : Filter) (hzv dbv qv f : R) :
  type flt = "low-shelf"%string \/ type flt = "high-shelf"%string ->
  hz flt = Js.Num (Js.Fin hzv) ->
  db flt = Js.Num (Js.Fin dbv) ->
  q flt = Js.Num (Js.Fin qv) ->
  0 < hzv -> 0 <= qv <= 20 -> 0 < f ->
  exists g : R,
    getFilterGain flt (Js.Fin f) = Js.Fin g /\
    (0 <= dbv -> 0 <= g <= dbv) /\
    (dbv <= 0 -> dbv <= g <= 0).
Proof.
  intros [Hty | Hty] Hhz Hdb Hq Hhzv Hqv Hf.
  - exists (low_shelf_gain hzv dbv qv f).
    split; [apply low_shelf_finite; assumption |].
    unfold low_shelf_gain.
    pose proof (logistic_bounds (shelf_normalized hzv qv f)) as Hb.
    split; intros Hs; nra.
  - exists (high_shelf_gain hzv dbv qv f).
    split; [apply high_shelf_finite; assumption |].
    unfold high_shelf_gain.
    pose proof (logistic_bounds (- shelf_normalized hzv qv f)) as Hb.
    split; intros Hs; nra.
Qed.

Lemma shelf_bounded_witness :
  exists g : R,
    getFilterGain high_shelf_B (Js.Fin 200) = Js.Fin g /\
    (0 <= 6 -> 0 <= g <= 6) /\
    (6 <= 0 -> 6 <= g <= 0).
Proof.
  refine (shelf_bounded high_shelf_B 100 6 0.707 200
            (or_intror eq_refl) eq_refl eq_refl eq_refl _ _ _); lra.
Defined.

End ShelfShape.

(** ** Edges of the responses *)

Section ResponseEdges.
Local Open Scope R_scope.

Lemma sgn_neg r : r < 0 -> Js.sgn r = Js.Neg.
Proof.
  intros H. unfold Js.sgn.
  destruct (total_order_T r 0) as [[Hlt | Heq] | Hgt]; try lra; reflexivity.
Qed.

Lemma sgn_zero : Js.sgn 0 = Js.Zero.
Proof.
  unfold Js.sgn.
  destruct (total_order_T 0 0) as [[Hlt | Heq] | Hgt]; try lra; reflexivity.
Qed.

Lemma log_with_zero g : Js.log_with g (Js.Fin 0) = Js.NInf.
Proof.
  unfold Js.log_with.
  destruct (total_order_T 0 0) as [[Hlt | Heq] | Hgt]; try lra; reflexivity.
Qed.

Lemma mul_NInf_pos r : 0 < r -> Js.mul Js.NInf (Js.Fin r) = Js.NInf.
Proof. intros H. unfold Js.mul. simpl. rewrite sgn_pos by assumption. reflexivity. Qed.

Lemma mul_pos_NInf r : 0 < r -> Js.mul (Js.Fin r) Js.NInf = Js.NInf.
Proof. intros H. unfold Js.mul. simpl. rewrite sgn_pos by assumption. reflexivity. Qed.

(** X5.  At 0 Hz no response is undefined: with a positive q a peaking
    filter answers 0, a low shelf its whole gain and a high shelf 0. *)
Theorem responses_at_zero (flt : Filter) (hzv dbv qv : R) :
  hz flt = Js.Num (Js.Fin hzv) ->
  db flt = Js.Num (Js.Fin dbv) ->
  q flt = Js.Num (Js.Fin qv) ->
  0 < hzv -> 0 < qv ->
  (type flt = "peaking"%string -> getFilterGain flt (Js.Fin 0) = Js.Fin 0) /\
  (type flt = "low-shelf"%string ->
   getFilterGain flt (Js.Fin 0) = Js.Fin dbv) /\
  (type flt = "high-shelf"%string ->
   getFilterGain flt (Js.Fin 0) = Js.Fin 0).
Proof.
  intros Hhz Hdb Hq Hhzv Hqv.
  assert (Hs : 0 < qv * 5) by lra.
  split; [| split]; intros Hty;
    unfold getFilterGain, is_type; rewrite Hty, Hhz, Hdb, Hq; simpl.
  - rewrite leb_Fin_false by assumption.
    rewrite div_Fin by lra.
    replace (0 / hzv) with 0 by (unfold Rdiv; ring).
    unfold Js.log2. rewrite log_with_zero.
    rewrite mul_NInf_pos by assumption.
    rewrite mul_pos_NInf by lra.
    change (Js.mul Js.NInf Js.NInf) with Js.PInf.
    change (Js.add (Js.Fin 1) Js.PInf) with Js.PInf.
    change (Js.div (Js.Fin dbv) Js.PInf) with (Js.Fin 0).
    rewrite gtb_Fin. destruct (Rlt_dec 0 dbv).
    + rewrite max_Fin. f_equal. apply Rmax_left. lra.
    + rewrite min_Fin. f_equal. apply Rmin_left. lra.
  - unfold Js.log10. rewrite log_with_zero.
    rewrite log_with_pos by assumption. autorewrite with js.
    change (Js.sub Js.NInf (Js.Fin (ln hzv / ln 10))) with Js.NInf.
    rewrite mul_NInf_pos by assumption.
    change (Js.exp Js.NInf) with (Js.Fin 0). autorewrite with js.
    rewrite div_Fin by lra. autorewrite with js. f_equal. field.
  - unfold Js.log10. rewrite log_with_zero.
    rewrite log_with_pos by assumption. autorewrite with js.
    change (Js.sub Js.NInf (Js.Fin (ln hzv / ln 10))) with Js.NInf.
    rewrite mul_NInf_pos by assumption.
    change (Js.exp (Js.neg Js.NInf)) with Js.PInf.
    change (Js.add (Js.Fin 1) Js.PInf) with Js.PInf.
    change (Js.div (Js.Fin 1) Js.PInf) with (Js.Fin 0).
    autorewrite with js. f_equal. ring.
Qed.

Lemma responses_at_zero_witness :
  getFilterGain low_shelf_B (Js.Fin 0) = Js.Fin 6.
Proof.
  refine (proj1 (proj2 (responses_at_zero low_shelf_B 100 6 0.707
                          eq_refl eq_refl eq_refl _ _)) eq_refl); lra.
Defined.

(** X6.  With q = 0 a shelf has no slope left: it answers half its gain at
    every frequency. *)
Theorem shelf_flat_at_q0 (flt : Filter) (hzv dbv f : R) :
  type flt = "low-shelf"%string \/ type flt = "high-shelf"%string ->
  hz flt = Js.Num (Js.Fin hzv) ->
  db flt = Js.Num (Js.Fin dbv) ->
  q flt = Js.Num (Js.Fin 0) ->
  0 < hzv -> 0 < f ->
  getFilterGain flt (Js.Fin f) = Js.Fin (dbv / 2).
Proof.
  intros [Hty | Hty] Hhz Hdb Hq Hhzv Hf.
  - rewrite (low_shelf_finite flt hzv dbv 0 f) by assumption.
    f_equal. unfold low_shelf_gain, shelf_normalized.
    replace ((ln f / ln 10 - ln hzv / ln 10) * (0 * 5)) with 0 by ring.
    rewrite exp_0. field.
  - rewrite (high_shelf_finite flt hzv dbv 0 f) by assumption.
    f_equal. unfold high_shelf_gain, shelf_normalized.
    replace (- ((ln f / ln 10 - ln hzv / ln 10) * (0 * 5))) with 0 by ring.
    rewrite exp_0. field.
Qed.

Lemma shelf_flat_at_q0_witness :
  getFilterGain shelf_q0 (Js.Fin 30) = Js.Fin (8 / 2).
Proof.
  refine (shelf_flat_at_q0 shelf_q0 4000 8 30
            (or_intror eq_refl) eq_refl eq_refl eq_refl _ _); lra.
Defined.

End ResponseEdges.

(** ** The custom response *)

Section CustomShape.
Local Open Scope R_scope.






End CustomShape.

(** ** The aggregate response *)

Section Aggregate.

Lemma total_as_sum (fs : list Filter) (freq : Js.num) :
  getTotalGain fs freq
  = sum_gains (map (fun flt => getFilterGain flt freq) fs).
Proof. unfold getTotalGain. rewrite fold_gain_acc. apply add_Fin_0_l. Qed.

Lemma unknown_type_gain (flt : Filter) (freq : Js.num) :
  known_type flt = false -> getFilterGain flt freq = Js.Fin 0.
Proof.
  unfold known_type, getFilterGain. intros H.
  destruct (is_type flt "peaking"), (is_type flt "low-shelf"),
    (is_type flt "high-shelf"), (is_type flt "custom");
    try discriminate; reflexivity.
Qed.

(** X12.  Filters of a type the component does not know contribute nothing:
    the total gain is that of the set without them. *)
Theorem total_gain_known (fs : list Filter) (freq : Js.num) :
  getTotalGain (List.filter known_type fs) freq = getTotalGain fs freq.
Proof.
  rewrite !total_as_sum.
  induction fs as [| flt fs IH]; simpl; [reflexivity |].
  destruct (known_type flt) eqn:Hk; simpl.
  - rewrite IH. reflexivity.
  - rewrite IH, (unknown_type_gain flt freq Hk). symmetry. apply add_Fin_0_l.
Qed.

Lemma sum_gains_low (l : list Js.num) :
  Forall (fun g => g <> Js.PInf /\ g <> Js.NaN) l ->
  (exists r, sum_gains l = Js.Fin r /\ Forall (fun g => g <> Js.NInf) l)
  \/ (sum_gains l = Js.NInf /\ Exists (fun g => g = Js.NInf) l).
Proof.
  induction 1 as [| g l [Hp Hn] _ IH]; simpl.
  - left. exists 0%R. split; [reflexivity | constructor].
  - destruct g as [a | | |]; try contradiction.
    + destruct IH as [(r & Hr & Hall) | [Hr Hex]]; rewrite Hr.
      * left. exists (a + r)%R. split; [reflexivity |].
        constructor; [discriminate | exact Hall].
      * right. split; [reflexivity | apply Exists_cons_tl; exact Hex].
    + right. split.
      * destruct IH as [(r & Hr & _) | [Hr _]]; rewrite Hr; reflexivity.
      * apply Exists_cons_hd. reflexivity.
Qed.

(** X13.  One filter answering [-Infinity] takes the total gain to
    [-Infinity], as long as no filter answers [Infinity] or [NaN]. *)
Theorem total_gain_muted (fs : list Filter) (freq : Js.num) :
  Forall (fun flt => getFilterGain flt freq <> Js.PInf
                     /\ getFilterGain flt freq <> Js.NaN) fs ->
  Exists (fun flt => getFilterGain flt freq = Js.NInf) fs ->
  getTotalGain fs freq = Js.NInf.
Proof.
  intros Hall Hex. rewrite total_as_sum.
  destruct (sum_gains_low (map (fun flt => getFilterGain flt freq) fs))
    as [(r & _ & Hno) | [Hs _]].
  - apply Forall_map. exact Hall.
  - exfalso. apply Exists_exists in Hex as (flt & Hin & Hg).
    rewrite Forall_map in Hno. rewrite Forall_forall in Hno.
    apply (Hno flt Hin). exact Hg.
  - exact Hs.
Qed.

Lemma custom_mute_gain (f : R) :
  getFilterGain custom_mute (Js.Fin f) = Js.NInf.
Proof.
  rewrite custom_gain_magnitude by reflexivity.
  rewrite (magnitude_finite custom_mute 0 0 0 0 0 f)
    by (reflexivity || (rewrite biquad_sq_unit; lra)).
  rewrite biquad_sq_zero, sqrt_0, seq_Fin.
  destruct (Req_dec_T _ 0) as [_ | Hne]; [reflexivity |].
  exfalso. apply Hne. unfold Rdiv. ring.
Qed.

Lemma total_gain_muted_witness :
  getTotalGain [peaking_A; custom_mute] (Js.Fin 1000) = Js.NInf.
Proof.
  apply total_gain_muted.
  - constructor; [| constructor; [| constructor]].
    + rewrite (peaking_finite peaking_A 1000 6 1 1000)
        by (reflexivity || lra).
      split; discriminate.
    + rewrite custom_mute_gain. split; discriminate.
  - apply Exists_cons_tl. apply Exists_cons_hd. apply custom_mute_gain.
Defined.

End Aggregate.

(** ** Ranges kept by the drag handlers *)

Section QRange.
Local Open Scope R_scope.

Lemma clamp_not_NaN lo hi v :
  lo <= hi -> v <> Js.NaN ->
  exists r, clamp lo hi v = Js.Fin r /\ lo <= r <= hi.
Proof.
  intros Hle Hv. destruct v as [a | | |]; simpl.
  - exists (clampR lo hi a). split; [reflexivity |].
    apply clampR_bounds. assumption.
  - exists hi. split; [reflexivity | lra].
  - exists lo. split; [reflexivity | lra].
  - contradiction.
Qed.

(** The symmetry factor is a number at least 1.001, or [Infinity]. *)
Lemma max_floor (v : Js.num) :
  v <> Js.NaN ->
  (exists s, Js.max (Js.Fin 1.001) v = Js.Fin s /\ 1.001 <= s)
  \/ Js.max (Js.Fin 1.001) v = Js.PInf.
Proof.
  intros Hv. destruct v as [a | | |].
  - left. exists (Rmax 1.001 a). split; [apply max_Fin | apply Rmax_l].
  - right. reflexivity.
  - left. exists 1.001. split; [reflexivity | lra].
  - contradiction.
Qed.

Lemma ratio_not_NaN_right (hf : Js.num) (h : R) :
  0 < h -> hf <> Js.NaN -> Js.div hf (Js.Fin h) <> Js.NaN.
Proof.
  intros Hh Hhf. destruct hf as [a | | |]; try contradiction.
  - rewrite div_Fin by lra. discriminate.
  - unfold Js.div. destruct (Req_dec_T h 0); [lra |].
    simpl. rewrite sgn_pos by assumption. discriminate.
  - unfold Js.div. destruct (Req_dec_T h 0); [lra |].
    simpl. rewrite sgn_pos by assumption. discriminate.
Qed.

Lemma ratio_not_NaN_left (hf : Js.num) (h : R) :
  0 < h -> hf <> Js.NaN -> Js.div (Js.Fin h) hf <> Js.NaN.
Proof.
  intros Hh Hhf. destruct hf as [a | | |]; try contradiction.
  - unfold Js.div. destruct (Req_dec_T a 0).
    + rewrite sgn_pos by assumption. discriminate.
    + discriminate.
  - discriminate.
  - discriminate.
Qed.

Lemma qDragQ_of_infinite_factor (hf : Js.num) (d : Z) (flt : Filter) :
  qDrag_symmetryFactor hf d flt = Js.PInf ->
  qDragQ hf d flt = Js.Fin 0.1.
Proof.
  intros Hs. unfold qDragQ. rewrite Hs.
  change (Js.sub Js.PInf (Js.Fin 1)) with Js.PInf.
  change (Js.div (Js.Fin 1) Js.PInf) with (Js.Fin 0).
  rewrite min_Fin, max_Fin. f_equal.
  rewrite Rmin_right by lra. apply Rmax_left. lra.
Qed.

Lemma qDrag_factor_cases (hf : Js.num) (d : Z) (flt : Filter) (h : R) :
  hz flt = Js.Num (Js.Fin h) -> 0 < h -> hf <> Js.NaN ->
  (exists s, qDrag_symmetryFactor hf d flt = Js.Fin s /\ 1.001 <= s)
  \/ qDrag_symmetryFactor hf d flt = Js.PInf.
Proof.
  intros Hhz Hh Hhf.
  unfold qDrag_symmetryFactor. rewrite Hhz. simpl Js.to_num.
  destruct (d =? 1)%Z; apply max_floor;
    [apply ratio_not_NaN_right | apply ratio_not_NaN_left]; assumption.
Qed.

(** X14.  Whatever frequency a Q handle is dragged to, short of [NaN], and
    whichever handle it is, the new q of a filter with a finite positive
    [hz] is a finite number within [0.1, 20]: no drag divides by zero or
    leaves a negative q. *)
Theorem qDrag_in_range (hf : Js.num) (d : Z) (flt : Filter) (h : R) :
  hz flt = Js.Num (Js.Fin h) -> 0 < h -> hf <> Js.NaN ->
  exists qv : R, qDragQ hf d flt = Js.Fin qv /\ 0.1 <= qv <= 20.
Proof.
  intros Hhz Hh Hhf.
  destruct (qDrag_factor_cases hf d flt h Hhz Hh Hhf)
    as [(s & Hs & Hge) | Hinf].
  - exists (clampR 0.1 20 (1 / (s - 1))).
    split; [apply qDragQ_of_factor; assumption |].
    apply clampR_bounds. lra.
  - exists 0.1. split; [apply qDragQ_of_infinite_factor; assumption | lra].
Qed.

Lemma qDrag_in_range_witness :
  exists qv : R, qDragQ (Js.Fin 0) 0 filter_C = Js.Fin qv /\ 0.1 <= qv <= 20.
Proof.
  refine (qDrag_in_range (Js.Fin 0) 0 filter_C 1000 eq_refl _ _).
  - lra.
  - discriminate.
Defined.

Lemma ratio_le_iff (h hf c : R) :
  0 < h -> (c * h <= hf <-> c <= hf / h) /\ (hf <= c * h <-> hf / h <= c).
Proof.
  intros Hh.
  assert (Hb : hf / h * h = hf) by (field; lra).
  split; split; intros H.
  - apply Rmult_le_reg_r with h; [assumption |]. rewrite Hb. exact H.
  - rewrite <- Hb. apply Rmult_le_compat_r; lra.
  - apply Rmult_le_reg_r with h; [assumption |]. rewrite Hb. exact H.
  - rewrite <- Hb. apply Rmult_le_compat_r; lra.
Qed.

Lemma qDragQ_right_between (flt : Filter) (h hf : R) :
  hz flt = Js.Num (Js.Fin h) -> 0 < h ->
  1.05 * h <= hf <= 11 * h ->
  qDragQ (Js.Fin hf) 1 flt = Js.Fin (h / (hf - h)) /\
  0.1 <= h / (hf - h) <= 20.
Proof.
  intros Hhz Hh [Hlo Hhi].
  assert (Hhf : h < hf) by lra.
  apply (ratio_le_iff h hf 1.05 Hh) in Hlo.
  apply (ratio_le_iff h hf 11 Hh) in Hhi.
  assert (Heq : 1 / (hf / h - 1) = h / (hf - h)) by (field; lra).
  set (rho := hf / h) in *.
  assert (Hinv : 1 / (rho - 1) * (rho - 1) = 1) by (field; lra).
  assert (H1 : 0.1 <= 1 / (rho - 1) <= 20).
  { split; (apply Rmult_le_reg_r with (rho - 1); [lra |]);
      rewrite Hinv; lra. }
  rewrite <- Heq. split; [| exact H1].
  rewrite (qDragQ_of_factor _ _ _ rho).
  - f_equal. apply clampR_id. exact H1.
  - rewrite (symmetryFactor_right flt h) by (assumption || lra).
    f_equal. apply Rmax_right. lra.
  - lra.
Qed.

Lemma saturated_q (rho : R) :
  (rho <= 1.05 -> clampR 0.1 20 (1 / (Rmax 1.001 rho - 1)) = 20) /\
  (11 <= rho -> clampR 0.1 20 (1 / (Rmax 1.001 rho - 1)) = 0.1).
Proof.
  assert (Hinv : forall t, 1 < t -> 1 / (t - 1) * (t - 1) = 1)
    by (intros t Ht; field; lra).
  assert (Hipos : forall t, 1 < t -> 0 < 1 / (t - 1))
    by (intros t Ht; apply Rdiv_lt_0_compat; lra).
  split.
  - intros Hle. set (s := Rmax 1.001 rho).
    assert (Hs : 1.001 <= s <= 1.05).
    { unfold s. split; [apply Rmax_l |]. apply Rmax_lub; lra. }
    assert (H20 : 20 <= 1 / (s - 1)).
    { apply Rmult_le_reg_r with (s - 1); [lra |]. rewrite Hinv by lra. lra. }
    unfold clampR. destruct (Rlt_dec _ 0.1); [lra |].
    destruct (Rlt_dec 20 _); lra.
  - intros Hge. rewrite Rmax_right by lra.
    assert (H01 : 1 / (rho - 1) <= 0.1).
    { apply Rmult_le_reg_r with (rho - 1); [lra |]. rewrite Hinv by lra. lra. }
    pose proof (Hipos rho) as Hpos.
    unfold clampR. destruct (Rlt_dec _ 0.1); [reflexivity |].
    destruct (Rlt_dec 20 _); lra.
Qed.

(** X15.  Where a Q drag saturates.  For a finite [hz > 0] and a handle
    frequency [hf > 0]: the right handle taken to or inside 1.04 times
    [hz], the centre and beyond included, gives the largest q, 20, and
    taken to or outside 12 times [hz] the smallest, 0.1; the left handle
    does the same at [hz / 1.04] and at [hz / 12]. *)
Theorem qDrag_saturation (flt : Filter) (h hf : R) :
  hz flt = Js.Num (Js.Fin h) -> 0 < h -> 0 < hf ->
  (hf <= 1.04 * h -> qDragQ (Js.Fin hf) 1 flt = Js.Fin 20) /\
  (12 * h <= hf -> qDragQ (Js.Fin hf) 1 flt = Js.Fin 0.1) /\
  (h <= 1.04 * hf -> qDragQ (Js.Fin hf) 0 flt = Js.Fin 20) /\
  (12 * hf <= h -> qDragQ (Js.Fin hf) 0 flt = Js.Fin 0.1).
Proof.
  intros Hhz Hh Hhf.
  assert (Hright : qDragQ (Js.Fin hf) 1 flt
               = Js.Fin (clampR 0.1 20 (1 / (Rmax 1.001 (hf / h) - 1)))).
  { apply qDragQ_of_factor; [apply symmetryFactor_right; (assumption || lra) |].
    apply Rmax_l. }
  assert (Hleft : qDragQ (Js.Fin hf) 0 flt
               = Js.Fin (clampR 0.1 20 (1 / (Rmax 1.001 (h / hf) - 1)))).
  { apply qDragQ_of_factor; [apply symmetryFactor_left; (assumption || lra) |].
    apply Rmax_l. }
  rewrite Hright, Hleft.
  destruct (saturated_q (hf / h)) as [Hr20 Hr01].
  destruct (saturated_q (h / hf)) as [Hl20 Hl01].
  split; [| split; [| split]]; intros Hc; f_equal.
  - apply Hr20. apply (ratio_le_iff h hf 1.05 Hh). lra.
  - apply Hr01. apply (ratio_le_iff h hf 11 Hh). lra.
  - apply Hl20. apply (ratio_le_iff hf h 1.05 Hhf). lra.
  - apply Hl01. apply (ratio_le_iff hf h 11 Hhf). lra.
Qed.

Lemma qDrag_saturation_witness :
  qDragQ (Js.Fin 900) 1 filter_C = Js.Fin 20.
Proof.
  refine (proj1 (qDrag_saturation filter_C 1000 900 eq_refl _ _) _); lra.
Defined.

End QRange.

(** ** Forward and inverse mappings of the Q handles *)

Section QMirror.
Local Open Scope R_scope.

(** X16.  The two Q handles stand on either side of [hz], mirror images
    of each other on the logarithmic axis.  For [hz] in [20, 20000] and q
    in [0.1, 20] they are finite, the left one between [hz / 12] and
    [hz / 1.04], the right one between 1.04 and 12 times [hz], and the
    product of their frequencies is [hz] squared within one part in
    1e9. *)
Theorem qPositions_symmetric (flt : Filter) (h qv : R) :
  hz flt = Js.Num (Js.Fin h) -> q flt = Js.Num (Js.Fin qv) ->
  20 <= h <= 20000 -> 0.1 <= qv <= 20 ->
  exists l r : R,
    qPositions flt = (Js.Fin l, Js.Fin r) /\
    h <= 12 * l /\ 1.04 * l <= h /\
    1.04 * h <= r <= 12 * h /\
    Rabs (l * r - h * h) <= h * h / 1000000000.
Proof.
  intros Hhz Hq Hh Hqv.
  exists (h / (1 + 1 / qv)), (h * (1 + 1 / qv)).
  split; [apply qPositions_finite; (assumption || lra) |].
  assert (Hi : 0.05 <= 1 / qv <= 10).
  { assert (Hone : 1 / qv * qv = 1) by (field; lra).
    split; nra. }
  set (s := 1 + 1 / qv) in *. assert (Hs1 : 1.05 <= s <= 11) by (unfold s; lra).
  assert (Hpos : 0 < / s) by (apply Rinv_0_lt_compat; lra).
  assert (Hone : / s * s = 1) by (field; lra).
  assert (Hprod : h / s * (h * s) = h * h) by (field; lra).
  rewrite Hprod. replace (h * h - h * h) with 0 by ring. rewrite Rabs_R0.
  assert (Hhh : 0 < h * h) by nra.
  unfold Rdiv. repeat split; nra.
Qed.

Lemma qPositions_symmetric_witness :
  exists l r : R,
    qPositions filter_C = (Js.Fin l, Js.Fin r) /\
    1000 <= 12 * l /\ 1.04 * l <= 1000 /\
    1.04 * 1000 <= r <= 12 * 1000 /\
    Rabs (l * r - 1000 * 1000) <= 1000 * 1000 / 1000000000.
Proof.
  refine (qPositions_symmetric filter_C 1000 2 eq_refl eq_refl _ _); lra.
Defined.

(** X18.  A handle dragged within the range that does not saturate lands
    where it was dragged: for [hz] in [20, 20000], after the right handle
    is taken to [handleFreq] between 1.05 and 11 times [hz], the handles
    redrawn from the new q are
    finite, the right one at [handleFreq] and the left one at its mirror
    image [hz^2 / handleFreq], each within one part in 1e9. *)
Theorem qDrag_lands (flt : Filter) (h hf : R) :
  hz flt = Js.Num (Js.Fin h) -> 20 <= h <= 20000 ->
  1.05 * h <= hf <= 11 * h ->
  exists l r : R,
    qPositions (set_q (qDragQ (Js.Fin hf) 1 flt) flt)
    = (Js.Fin l, Js.Fin r) /\
    Rabs (r - hf) <= hf / 1000000000 /\
    Rabs (l * hf - h * h) <= h * h / 1000000000.
Proof.
  intros Hhz Hh20 Hr. assert (Hh : 0 < h) by lra.
  destruct (qDragQ_right_between flt h hf Hhz Hh Hr) as [Hq Hrange].
  assert (Hhf : h < hf) by lra.
  exists (h * h / hf), hf. split.
  - rewrite (qPositions_finite _ h (h / (hf - h))).
    + f_equal; f_equal; field; lra.
    + exact Hhz.
    + simpl. rewrite Hq. reflexivity.
    + lra.
  - replace (hf - hf) with 0 by ring.
    replace (h * h / hf * hf - h * h) with 0 by (field; lra).
    rewrite Rabs_R0. assert (Hhh : 0 < h * h) by nra.
    split; lra.
Qed.

Lemma qDrag_lands_witness :
  exists l r : R,
    qPositions (set_q (qDragQ (Js.Fin 2000) 1 filter_C) filter_C)
    = (Js.Fin l, Js.Fin r) /\
    Rabs (r - 2000) <= 2000 / 1000000000 /\
    Rabs (l * 2000 - 1000 * 1000) <= 1000 * 1000 / 1000000000.
Proof.
  refine (qDrag_lands filter_C 1000 2000 eq_refl _ _); lra.
Defined.

End QMirror.

(** ** Invariants of the drags *)

Section DragInvariants.

Variable scaleLog scaleLinear : d3.ScaleCtor.
Variable clientWidth : Z.
Variable selectedId : Z.

Local Abbreviation xS := (xScale scaleLog clientWidth).
Local Abbreviation yS := (yScale scaleLinear).
Local Abbreviation handleDragF :=
  (handleDrag_filter scaleLog scaleLinear clientWidth).
Local Abbreviation qDragF := (qDrag_filter scaleLog clientWidth).

Local Open Scope R_scope.

Lemma mul_2_not_NaN (v : Js.num) :
  v <> Js.NaN -> Js.mul v (Js.Fin 2) <> Js.NaN.
Proof.
  intros Hv. destruct v as [a | | |]; try contradiction.
  - rewrite mul_Fin. discriminate.
  - unfold Js.mul. simpl. rewrite sgn_pos by lra. discriminate.
  - unfold Js.mul. simpl. rewrite sgn_pos by lra. discriminate.
Qed.

Lemma handleDrag_filter_in_range (x y : Js.num) (flt : Filter) :
  in_range flt ->
  d3.invert xS x <> Js.NaN -> d3.invert yS y <> Js.NaN ->
  in_range (handleDragF x y flt).
Proof.
  intros (h & d & qv & Hhz & Hdb & Hq & Hh & Hd & Hqv) Hx Hy.
  destruct (clamp_not_NaN 20 20000 (d3.invert xS x)) as (h' & Hh' & Hr');
    [lra | assumption |].
  unfold handleDrag_filter. rewrite !max_min_clamp by lra. rewrite Hh'.
  destruct (is_type _ _).
  - destruct (clamp_not_NaN (-25) 25 (d3.invert yS y)) as (d' & Hd' & Hrd);
      [lra | assumption |].
    rewrite Hd'. exists h', d', qv. repeat split; (assumption || lra).
  - destruct (clamp_not_NaN (-25) 25 (Js.mul (d3.invert yS y) (Js.Fin 2)))
      as (d' & Hd' & Hrd); [lra | apply mul_2_not_NaN; assumption |].
    rewrite Hd'. exists h', d', qv. repeat split; (assumption || lra).
Qed.

Lemma qDrag_filter_in_range (x : Js.num) (d : Z) (flt : Filter) :
  in_range flt ->
  d3.invert xS (Js.add x (Js.Fin 12)) <> Js.NaN ->
  in_range (qDragF x d flt).
Proof.
  intros (h & dv & qv & Hhz & Hdb & Hq & Hh & Hd & Hqv) Hx.
  assert (Hh0 : 0 < h) by lra.
  unfold qDrag_filter.
  destruct (qDrag_factor_cases (d3.invert xS (Js.add x (Js.Fin 12))) d flt h
              Hhz Hh0 Hx) as [(s & Hs & Hge) | Hinf].
  - rewrite (qDragQ_of_factor _ _ _ s Hs Hge).
    pose proof (clampR_bounds 0.1 20 (1 / (s - 1))) as Hb.
    exists h, dv, (clampR 0.1 20 (1 / (s - 1))).
    repeat split; (assumption || lra).
  - rewrite (qDragQ_of_infinite_factor _ _ _ Hinf).
    exists h, dv, 0.1. repeat split; (assumption || lra).
Qed.

(** X19.  The drags never take a filter out of range: if every filter of the
    working copy has finite parameters with [hz] in [20, 20000], [db] in
    [-25, 25] and q in [0.1, 20], it is still so after a drag of the main
    handle or of a Q handle to any screen position that the scales invert to
    a number. *)
Theorem drags_keep_range (now : Z) (sf : nat) (st : State) :
  Forall in_range (internalFilters (inner st)) ->
  (forall x y,
     d3.invert xS x <> Js.NaN -> d3.invert yS y <> Js.NaN ->
     Forall in_range
       (internalFilters
          (inner (handleDrag_drag scaleLog scaleLinear clientWidth
                    selectedId now sf x y st)))) /\
  (forall x d,
     d3.invert xS (Js.add x (Js.Fin 12)) <> Js.NaN ->
     Forall in_range
       (internalFilters
          (inner (qDrag_drag scaleLog scaleLinear clientWidth
                    selectedId now sf x d st)))).
Proof.
  intros Hall. split.
  - intros x y Hx Hy. rewrite handleDrag_internal.
    apply Forall_alter; [exact Hall |].
    intros flt _ Hin. apply handleDrag_filter_in_range; assumption.
  - intros x d Hx. rewrite qDrag_internal.
    apply Forall_alter; [exact Hall |].
    intros flt _ Hin. apply qDrag_filter_in_range; assumption.
Qed.

End DragInvariants.

(** ** Drags that do not move *)

Section Perturbation.
Local Open Scope R_scope.

Lemma Rabs_bound (a b : R) : Rabs a <= b -> - b <= a <= b.
Proof. unfold Rabs. destruct (Rcase_abs a); lra. Qed.

Lemma clampR_close lo hi v x :
  lo <= v <= hi -> Rabs (clampR lo hi x - v) <= Rabs (x - v).
Proof.
  intros [Hlo Hhi]. unfold clampR.
  destruct (Rlt_dec x lo); [| destruct (Rlt_dec hi x)];
    unfold Rabs; repeat destruct (Rcase_abs _); lra.
Qed.

Lemma inv_close (a dl : R) :
  0.05 <= a <= 10 ->
  Rabs dl <= 2 * (1 + a) / 1000000000000 ->
  0.04 <= a + dl /\ Rabs (1 / (a + dl) - 1 / a) <= 1 / 1000000000.
Proof.
  intros Ha Hd. apply Rabs_bound in Hd.
  assert (Hsum : 0.04 <= a + dl) by lra.
  split; [exact Hsum |].
  set (P := a * (a + dl)).
  assert (HP : (1 + a) / 500 <= P).
  { unfold P. assert (H1 : 0.05 * a <= a * a) by nra.
    assert (H2 : - (a * (2 * (1 + a) / 1000000000000)) <= a * dl) by nra.
    nra. }
  assert (HP0 : 0 < P) by lra.
  replace (1 / (a + dl) - 1 / a) with (- dl / P)
    by (unfold P; field; lra).
  set (y := - dl / P).
  assert (Hy : y * P = - dl) by (unfold y; field; lra).
  apply Rabs_le. split; nra.
Qed.

Lemma q_from_ratio_close (qv u : R) :
  0.1 <= qv <= 20 ->
  Rabs (u - (1 + 1 / qv)) <= 2 * (1 + 1 / qv) / 1000000000000 ->
  Rabs (clampR 0.1 20 (1 / (Rmax 1.001 u - 1)) - qv) <= 1 / 1000000000.
Proof.
  intros Hq Hu.
  assert (Ha : 0.05 <= 1 / qv <= 10).
  { assert (Hone : 1 / qv * qv = 1) by (field; lra). split; nra. }
  set (a := 1 / qv) in *.
  destruct (inv_close a (u - (1 + a)) Ha Hu) as [Hsum Hclose].
  replace (a + (u - (1 + a))) with (u - 1) in * by ring.
  rewrite Rmax_right by lra.
  replace (1 / a) with qv in Hclose by (unfold a; field; lra).
  eapply Rle_trans; [apply clampR_close; exact Hq | exact Hclose].
Qed.

End Perturbation.

Section AtRest.

Variable scaleLog scaleLinear : d3.ScaleCtor.
Variable clientWidth : Z.

Local Abbreviation xS := (xScale scaleLog clientWidth).
Local Abbreviation yS := (yScale scaleLinear).
Local Abbreviation handleDragF :=
  (handleDrag_filter scaleLog scaleLinear clientWidth).
Local Abbreviation qDragF := (qDrag_filter scaleLog clientWidth).

Local Open Scope R_scope.

Lemma handleDrag_near_handle (flt : Filter) (h d px py h1 v v1 : R) :
  hz flt = Js.Num (Js.Fin h) -> db flt = Js.Num (Js.Fin d) ->
  20 <= h <= 20000 -> -25 <= d <= 25 ->
  d3.invert xS (Js.Fin px) = Js.Fin h1 ->
  Rabs (h1 - h) <= 1 / 1000000000000 * h ->
  handleYValue flt = Js.Fin v ->
  d3.invert yS (Js.Fin py) = Js.Fin v1 ->
  Rabs (v1 - v) <= 1 / 1000000000000 ->
  exists h' d' : R,
    handleDragF (Js.Fin px) (Js.Fin py) flt
    = set_db (Js.Fin d') (set_hz (Js.Fin h') flt) /\
    Rabs (h' - h) <= h / 1000000000 /\
    Rabs (d' - d) <= 1 / 1000000000.
Proof.
  intros Hhz Hdb Hh Hd Hx Hh1 Hv Hy Hv1.
  unfold handleDrag_filter. rewrite !max_min_clamp by lra. rewrite Hx, Hy.
  assert (Hhz' : Rabs (clampR 20 20000 h1 - h) <= h / 1000000000).
  { eapply Rle_trans; [apply clampR_close; exact Hh |]. lra. }
  unfold handleYValue in Hv. rewrite Hdb in Hv. simpl Js.to_num in Hv.
  unfold is_type in *. simpl type.
  destruct (String.eqb (type flt) "peaking").
  - injection Hv as <-.
    exists (clampR 20 20000 h1), (clampR (-25) 25 v1).
    split; [reflexivity |]. split; [exact Hhz' |].
    eapply Rle_trans; [apply clampR_close; exact Hd |]. lra.
  - rewrite div_Fin in Hv by lra. injection Hv as <-.
    exists (clampR 20 20000 h1), (clampR (-25) 25 (v1 * 2)).
    split; [rewrite mul_Fin; reflexivity |]. split; [exact Hhz' |].
    eapply Rle_trans; [apply clampR_close; exact Hd |].
    apply Rabs_bound in Hv1. apply Rabs_le. lra.
Qed.

(** X20.  A drag that starts and does not move changes next to nothing.
    With scales whose [invert] undoes them within one part in 1e12 along
    the frequency axis, between 1 Hz and 1 MHz, and within 1e-12 dB along
    the gain axis, between -25 and 25 dB, taking the
    main handle to the position it is drawn at gives back [hz] within one
    part in 1e9 and [db] within 1e-9, and taking a Q handle's hit area to
    where it is drawn gives back q within 1e-9, for a filter in range;
    nothing else of the filter changes. *)
Theorem drag_at_rest (sf : nat) (c : Component) (flt : Filter)
    (h d qv : R) :
  inverts_relative (1 / 1000000000000) 1 1000000 xS ->
  inverts_between (1 / 1000000000000) (-25) 25 yS ->
  internalFilters c !! sf = Some flt ->
  hz flt = Js.Num (Js.Fin h) -> db flt = Js.Num (Js.Fin d) ->
  q flt = Js.Num (Js.Fin qv) ->
  20 <= h <= 20000 -> -25 <= d <= 25 -> 0.1 <= qv <= 20 ->
  exists hd : Handles,
    handles (updateHandles scaleLog scaleLinear clientWidth sf c) = Some hd /\
    (exists h' d' : R,
       handleDragF (fst (mainHandle hd)) (snd (mainHandle hd)) flt
       = set_db (Js.Fin d') (set_hz (Js.Fin h') flt) /\
       Rabs (h' - h) <= h / 1000000000 /\
       Rabs (d' - d) <= 1 / 1000000000) /\
    (exists q' : R,
       qDragF (fst (qHandleHitArea hd)) 0 flt = set_q (Js.Fin q') flt /\
       Rabs (q' - qv) <= 1 / 1000000000) /\
    (exists q' : R,
       qDragF (snd (qHandleHitArea hd)) 1 flt = set_q (Js.Fin q') flt /\
       Rabs (q' - qv) <= 1 / 1000000000).
Proof.
  intros HX HY Hl Hhz Hdb Hq Hh Hd Hqv.
  unfold updateHandles. rewrite Hl. eexists. split; [reflexivity |].
  cbv zeta. unfold set_handles. cbn [handles].
  cbn [mainHandle qHandleHitArea fst snd].
  assert (Hqpos : 0 < qv) by lra. assert (Hhpos : 0 < h) by lra.
  assert (Hpos := qPositions_finite flt h qv Hhz Hq Hqpos).
  assert (Ha : 0.05 <= 1 / qv <= 10).
  { assert (Hone : 1 / qv * qv = 1) by (field; lra). split; nra. }
  set (a := 1 / qv) in *.
  split; [| split].
  - assert (Hhr : 1 <= h <= 1000000) by lra.
    destruct (HX h Hhr) as (px & h1 & Hpx & Hix & Hh1).
    assert (Hy : exists v, handleYValue flt = Js.Fin v /\ -25 <= v <= 25).
    { unfold handleYValue. rewrite Hdb. simpl.
      destruct (is_type flt "peaking"); [exists d; split; [reflexivity | lra] |].
      rewrite div_Fin by lra. exists (d / 2). split; [reflexivity | lra]. }
    destruct Hy as (v & Hv & Hvr).
    destruct (HY v Hvr) as (py & v1 & Hpy & Hiy & Hv1).
    rewrite Hhz. simpl Js.to_num. rewrite Hpx, Hv, Hpy.
    apply (handleDrag_near_handle flt h d px py h1 v v1); assumption.
  - rewrite Hpos. cbn [fst].
    assert (Hl0 : 1 <= h / (1 + a) <= 1000000).
    { assert (Hm : h / (1 + a) * (1 + a) = h) by (field; lra).
      split; nra. }
    destruct (HX _ Hl0) as (p & l1 & Hp & Hip & Hl1).
    unfold qDrag_filter. rewrite Hp. autorewrite with js.
    replace (p - 12 + 12) with p by ring. rewrite Hip.
    set (l := h / (1 + a)) in *.
    assert (Hlh : l * (1 + a) = h) by (unfold l; field; lra).
    apply Rabs_bound in Hl1.
    assert (Hl1pos : l / 2 <= l1) by lra.
    assert (Hne : l1 <> 0) by lra.
    rewrite (qDragQ_of_factor _ _ _ (Rmax 1.001 (h / l1)));
      [| apply symmetryFactor_left; assumption | apply Rmax_l].
    eexists. split; [reflexivity |].
    apply q_from_ratio_close; [exact Hqv |]. fold a.
    set (u := h / l1). assert (Hu : u * l1 = h) by (unfold u; field; lra).
    set (dl := u - (1 + a)).
    assert (Hdl : dl * l1 = (1 + a) * (l - l1)) by (unfold dl; nra).
    apply Rabs_le. split.
    + assert (H0 : 0 <= (dl + 2 * (1 + a) / 1000000000000) * l1) by nra.
      nra.
    + assert (H0 : 0 <= (2 * (1 + a) / 1000000000000 - dl) * l1) by nra.
      nra.
  - rewrite Hpos. cbn [snd].
    assert (Hr0 : 1 <= h * (1 + a) <= 1000000) by nra.
    destruct (HX _ Hr0) as (p & r1 & Hp & Hip & Hr1).
    unfold qDrag_filter. rewrite Hp. autorewrite with js.
    replace (p - 12 + 12) with p by ring. rewrite Hip.
    rewrite (qDragQ_of_factor _ _ _ (Rmax 1.001 (r1 / h)));
      [| apply symmetryFactor_right; (assumption || lra) | apply Rmax_l].
    eexists. split; [reflexivity |].
    apply q_from_ratio_close; [exact Hqv |]. fold a.
    apply Rabs_bound in Hr1.
    set (u := r1 / h). assert (Hu : u * h = r1) by (unfold u; field; lra).
    set (dl := u - (1 + a)).
    assert (Hdl : dl * h = r1 - h * (1 + a)) by (unfold dl; nra).
    apply Rabs_le. split.
    + assert (H0 : 0 <= (dl + 2 * (1 + a) / 1000000000000) * h) by nra.
      nra.
    + assert (H0 : 0 <= (2 * (1 + a) / 1000000000000 - dl) * h) by nra.
      nra.
Qed.

End AtRest.

(** ** d3's scales are inverse pairs *)

Section D3Inverse.
Local Open Scope R_scope.

Lemma ln_10_lt_ln_20000 : ln 10 < ln 20000.
Proof. apply ln_increasing; lra. Qed.

Lemma d3_log_inverts (W : Z) (eps lo hi : R) :
  0 < IZR W -> 0 <= eps -> 0 < lo ->
  inverts_relative eps lo hi
    (d3.scaleLog (Js.Fin 10, Js.Fin 20000) (Js.Fin 0, Js.Fin (IZR W))).
Proof.
  intros HW Heps Hlo r Hrange. pose proof ln_10_lt_ln_20000 as Hln.
  assert (Hr : 0 < r) by lra.
  exists (0 * (1 - (ln r - ln 10) / (ln 20000 - ln 10))
          + IZR W * ((ln r - ln 10) / (ln 20000 - ln 10))), r.
  split; [| split].
  - unfold d3.scaleLog. simpl d3.apply. unfold Js.log.
    rewrite !log_with_pos by lra.
    unfold d3.bimap. simpl fst. simpl snd.
    replace (Js.ltb (Js.Fin (ln 20000)) (Js.Fin (ln 10))) with false
      by (unfold Js.ltb; destruct (Rlt_dec _ _); [lra | reflexivity]).
    unfold d3.interpolateNumber, d3.normalize. rewrite sub_Fin.
    destruct (Req_dec_T (ln 20000 - ln 10) 0) as [He | Hne]; [lra |].
    rewrite sub_Fin, div_Fin by assumption.
    autorewrite with js. reflexivity.
  - rewrite d3_xScale_invert by assumption. f_equal.
    transitivity (exp (ln r)); [| apply exp_ln; assumption].
    f_equal. field. lra.
  - replace (r - r) with 0 by ring. rewrite Rabs_R0. nra.
Qed.

Lemma d3_linear_inverts (eps lo hi : R) :
  0 <= eps -> inverts_between eps lo hi (yScale d3.scaleLinear).
Proof.
  intros Heps r _. unfold yScale, d3.scaleLinear.
  change (IZR innerHeight) with 310.
  exists (310 * (1 - (r - -25) / (25 - -25)) + 0 * ((r - -25) / (25 - -25))), r.
  split; [| split].
  - simpl d3.apply. unfold d3.bimap. simpl fst. simpl snd.
    replace (Js.ltb (Js.Fin 25) (Js.Fin (-25))) with false
      by (unfold Js.ltb; destruct (Rlt_dec _ _); [lra | reflexivity]).
    unfold d3.interpolateNumber, d3.normalize. rewrite sub_Fin.
    destruct (Req_dec_T (25 - -25) 0) as [He | Hne]; [lra |].
    rewrite sub_Fin, div_Fin by assumption.
    autorewrite with js. reflexivity.
  - simpl d3.invert. unfold d3.bimap. simpl fst. simpl snd.
    replace (Js.ltb (Js.Fin 0) (Js.Fin 310)) with true
      by (unfold Js.ltb; destruct (Rlt_dec _ _); [reflexivity | lra]).
    unfold d3.interpolateNumber, d3.normalize. rewrite sub_Fin.
    destruct (Req_dec_T (310 - 0) 0) as [He | Hne]; [lra |].
    rewrite sub_Fin, div_Fin by assumption.
    autorewrite with js. f_equal. field.
  - replace (r - r) with 0 by ring. rewrite Rabs_R0. exact Heps.
Qed.

Lemma drag_at_rest_witness :
  exists hd : Handles,
    handles (updateHandles d3.scaleLog d3.scaleLinear 800 0 component_A)
    = Some hd /\
    (exists h' d' : R,
       handleDrag_filter d3.scaleLog d3.scaleLinear 800
         (fst (mainHandle hd)) (snd (mainHandle hd)) peaking_A
       = set_db (Js.Fin d') (set_hz (Js.Fin h') peaking_A) /\
       Rabs (h' - 1000) <= 1000 / 1000000000 /\
       Rabs (d' - 6) <= 1 / 1000000000) /\
    (exists q' : R,
       qDrag_filter d3.scaleLog 800 (fst (qHandleHitArea hd)) 0 peaking_A
       = set_q (Js.Fin q') peaking_A /\
       Rabs (q' - 1) <= 1 / 1000000000) /\
    (exists q' : R,
       qDrag_filter d3.scaleLog 800 (snd (qHandleHitArea hd)) 1 peaking_A
       = set_q (Js.Fin q') peaking_A /\
       Rabs (q' - 1) <= 1 / 1000000000).
Proof.
  refine (drag_at_rest d3.scaleLog d3.scaleLinear 800 0 component_A peaking_A
            1000 6 1 _ _ eq_refl eq_refl eq_refl eq_refl _ _ _).
  - unfold xScale. change (innerWidth 800) with 700%Z.
    apply d3_log_inverts; lra.
  - apply d3_linear_inverts. lra.
  - lra.
  - lra.
  - lra.
Defined.

Lemma drags_keep_range_witness :
  Forall in_range
    (internalFilters
       (inner (qDrag_drag d3.scaleLog d3.scaleLinear 800 1 0 0%nat
                 (Js.Fin 400) 1 state_A))).
Proof.
  refine (proj2 (drags_keep_range d3.scaleLog d3.scaleLinear 800 1 0 0%nat
                   state_A _) (Js.Fin 400) 1%Z _).
  - constructor; [| constructor].
    exists 1000, 6, 1. repeat split; (reflexivity || lra).
  - rewrite add_Fin. unfold xScale. change (innerWidth 800) with 700%Z.
    rewrite d3_xScale_invert by lra. discriminate.
Defined.

End D3Inverse.

(** ** The throttle's timer *)

Section ThrottleInvariant.

Variable scaleLog scaleLinear : d3.ScaleCtor.
Variable clientWidth : Z.
Variable selectedId : Z.

Local Abbreviation step :=
  (exec scaleLog scaleLinear clientWidth selectedId).
Local Abbreviation steps :=
  (run scaleLog scaleLinear clientWidth selectedId).
Local Abbreviation well_scheduled :=
  (scheduled scaleLog scaleLinear clientWidth selectedId).

Lemma one_timer_on_component g (st : State) :
  one_timer st -> one_timer (on_component g st).
Proof. intros H. exact H. Qed.

Lemma one_timer_throttled now v (st : State) :
  one_timer st -> one_timer (throttledFiltersUpdate now v st).
Proof.
  intros [[Ho Ht] | [Hc Ht]]; unfold throttledFiltersUpdate.
  - rewrite throttle_open by exact Ho. right. split; [reflexivity |].
    simpl. rewrite Ht. eauto.
  - rewrite throttle_closed by exact Hc. right. split; assumption.
Qed.

Lemma one_timer_step sf now k (st : State) :
  one_timer st ->
  match k with
  | Timeout deadline => In deadline (timers st)
  | _ => True
  end ->
  one_timer (step sf now k st).
Proof.
  intros Hone Hk. destruct k; simpl.
  - exact Hone.
  - apply one_timer_throttled. exact Hone.
  - apply one_timer_throttled. exact Hone.
  - exact Hone.
  - destruct Hone as [[_ Ht] | [_ (d & Ht)]]; rewrite Ht in Hk.
    + destruct Hk.
    + destruct Hk as [<- | []]. left. split; [reflexivity |].
      simpl. rewrite Ht. simpl. rewrite Z.eqb_refl. reflexivity.
  - exact Hone.
Qed.

(** X21.  The throttle never has more than one timer pending, and it is
    closed exactly while that timer is: this holds along every schedule in
    which timers fire only when they are pending. *)
Theorem throttle_one_timer (sf : nat) (sched : list (Z * task)) :
  forall (from : Z) (st : State),
    one_timer st ->
    well_scheduled sf from sched st ->
    one_timer (steps sf sched st) /\
    (length (timers (steps sf sched st)) <= 1)%nat.
Proof.
  assert (Hlen : forall t : State, one_timer t -> (length (timers t) <= 1)%nat).
  { intros t [[_ Ht] | [_ (d & Ht)]]; rewrite Ht; simpl; lia. }
  induction sched as [| [now k] rest IH]; intros from st Hone Hs.
  - split; [exact Hone | apply Hlen; exact Hone].
  - simpl in Hs. destruct Hs as (_ & Hk & Hrest).
    simpl. apply (IH now); [| exact Hrest].
    apply one_timer_step; [exact Hone |].
    destruct k; try exact I. destruct Hk as [Hin _]. exact Hin.
Qed.

(** X22.  Once the timer of a written change has fired, the next change is
    written at once again and opens a new window. *)
Theorem throttle_reopens (sf : nat) (st : State) (t0 t1 t : Z) (k0 k : task) :
  is_change k0 = true -> is_change k = true ->
  inThrottle st = false -> timers st = [] ->
  well_scheduled sf t0 [(t0, k0); (t1, Timeout (t0 + 50)); (t, k)] st ->
  let st' := steps sf [(t0, k0); (t1, Timeout (t0 + 50)); (t, k)] st in
  filters (inner st') = json_clone (internalFilters (inner st')) /\
  inThrottle st' = true /\ timers st' = [(t + 50)%Z] /\
  (t0 + 50 <= t)%Z.
Proof.
  intros Hk0 Hk Hopen Hnone Hs st'.
  destruct (change_forwarded scaleLog scaleLinear clientWidth selectedId
              sf t0 k0 st Hk0 Hopen) as (_ & _ & Htm).
  rewrite Hnone in Htm. simpl in Htm.
  set (s1 := step sf t0 k0 st) in *.
  set (s2 := step sf t1 (Timeout (t0 + 50)) s1).
  assert (Ho2 : inThrottle s2 = false) by reflexivity.
  assert (Ht2 : timers s2 = []).
  { unfold s2. simpl. rewrite Htm. simpl. rewrite Z.eqb_refl. reflexivity. }
  destruct (change_forwarded scaleLog scaleLinear clientWidth selectedId
              sf t k s2 Hk Ho2) as (Hf & Hc & Htm3).
  rewrite Ht2 in Htm3.
  subst st'. simpl steps. fold s1. fold s2.
  split; [exact Hf |]. split; [exact Hc |]. split; [exact Htm3 |].
  simpl in Hs. lia.
Qed.

End ThrottleInvariant.

Lemma throttle_one_timer_witness :
  one_timer
    (run d3.scaleLog d3.scaleLinear 800 1 0%nat
       [(0, HandleDrag (Js.Fin 0) (Js.Fin 155));
        (50, Timeout 50);
        (60, QDrag (Js.Fin 400) 1)]%Z state_A).
Proof.
  refine (proj1 (throttle_one_timer d3.scaleLog d3.scaleLinear 800 1 0%nat
                   [(0, HandleDrag (Js.Fin 0) (Js.Fin 155));
                    (50, Timeout 50);
                    (60, QDrag (Js.Fin 400) 1)]%Z 0%Z state_A _ _)).
  - left. split; reflexivity.
  - simpl. repeat split; lia.
Defined.

Lemma throttle_reopens_witness :
  let st' :=
    run d3.scaleLog d3.scaleLinear 800 1 0%nat
      [(0, HandleDrag (Js.Fin 0) (Js.Fin 155));
       (55, Timeout (0 + 50));
       (60, QDrag (Js.Fin 400) 1)]%Z state_A in
  filters (inner st') = json_clone (internalFilters (inner st')) /\
  inThrottle st' = true /\ timers st' = [(60 + 50)%Z] /\
  (0 + 50 <= 60)%Z.
Proof.
  refine (throttle_reopens d3.scaleLog d3.scaleLinear 800 1 0%nat state_A
            0 55 60 (HandleDrag (Js.Fin 0) (Js.Fin 155))
            (QDrag (Js.Fin 400) 1) eq_refl eq_refl eq_refl eq_refl _).
  simpl. repeat split; lia.
Defined.

(** ** Copies of the filters *)

Section Copies.

Lemma json_value_safe v : json_safe_value (Js.json_value v).
Proof. destruct v as [[r | | |] | |]; exact I. Qed.

Lemma json_value_id v : json_safe_value v -> Js.json_value v = v.
Proof. destruct v as [[r | | |] | |]; simpl; intros H; (reflexivity || destruct H). Qed.

Lemma json_filter_id f : json_safe f -> json_filter f = f.
Proof.
  intros (H1 & H2 & H3 & H4 & H5 & H6 & H7 & H8).
  unfold json_filter. rewrite !json_value_id by assumption.
  destruct f; reflexivity.
Qed.

Lemma json_filter_safe f : json_safe (json_filter f).
Proof. repeat split; apply json_value_safe. Qed.

Lemma json_clone_id l : Forall json_safe l -> json_clone l = l.
Proof.
  induction 1 as [| f l Hf _ IH]; simpl; [reflexivity |].
  rewrite json_filter_id by assumption. f_equal. exact IH.
Qed.

(** X23.  The deep copy through JSON keeps ids and types, leaves only finite
    numbers, [null] and absent properties behind, changes nothing when
    copied again, and is exact on filters that hold nothing else. *)
Theorem json_clone_exact (l : list Filter) :
  Forall json_safe (json_clone l) /\
  json_clone (json_clone l) = json_clone l /\
  map id (json_clone l) = map id l /\
  map type (json_clone l) = map type l /\
  (Forall json_safe l -> json_clone l = l).
Proof.
  assert (Hsafe : Forall json_safe (json_clone l)).
  { unfold json_clone. apply Forall_map. apply Forall_forall.
    intros f _. apply json_filter_safe. }
  split; [exact Hsafe |].
  split; [apply json_clone_id; exact Hsafe |].
  unfold json_clone. rewrite !map_map. repeat split.
  apply json_clone_id.
Qed.

Lemma in_range_gain_safe (f : Filter) :
  in_range f -> json_safe_value (hz f) /\ json_safe_value (db f)
                /\ json_safe_value (q f).
Proof.
  intros (h & d & qv & -> & -> & -> & _). repeat split.
Qed.

End Copies.

(** ** The watcher and the end of a drag *)

Section Watcher.

Variable scaleLog scaleLinear : d3.ScaleCtor.
Variable clientWidth : Z.
Variable selectedId : Z.

Local Abbreviation step :=
  (exec scaleLog scaleLinear clientWidth selectedId).
Local Abbreviation steps :=
  (run scaleLog scaleLinear clientWidth selectedId).

Lemma isDragging_updateCurves c :
  isDragging (updateCurves scaleLog clientWidth selectedId c) = isDragging c.
Proof.
  unfold updateCurves.
  destruct (selectedFilter selectedId c) as [[i f] |]; reflexivity.
Qed.

Lemma isDragging_updateHandles sf c :
  isDragging (updateHandles scaleLog scaleLinear clientWidth sf c)
  = isDragging c.
Proof.
  unfold updateHandles. destruct (internalFilters c !! sf); reflexivity.
Qed.

Lemma isDragging_throttled now v (st : State) :
  isDragging (inner (throttledFiltersUpdate now v st))
  = isDragging (inner st).
Proof.
  unfold throttledFiltersUpdate, throttle.
  destruct (inThrottle st); reflexivity.
Qed.

Lemma isDragging_step sf now k (st : State) :
  k <> DragEnd -> isDragging (inner st) = true ->
  isDragging (inner (step sf now k st)) = true.
Proof.
  intros Hk Hd. destruct k; simpl.
  - reflexivity.
  - unfold handleDrag_drag. rewrite isDragging_throttled. simpl.
    rewrite isDragging_updateCurves, isDragging_updateHandles. exact Hd.
  - unfold qDrag_drag. rewrite isDragging_throttled. simpl.
    rewrite isDragging_updateCurves, isDragging_updateHandles. exact Hd.
  - contradiction.
  - exact Hd.
  - unfold watch_filters. rewrite Hd. exact Hd.
Qed.

Lemma task_is_watch (k : task) : k = WatchFilters \/ k <> WatchFilters.
Proof. destruct k; (left; reflexivity) || (right; discriminate). Qed.

(** X24.  While a drag lasts the watcher on the parent's filters does
    nothing: the writes the throttle lets through do not come back to
    overwrite the working copy.  A schedule without the end of the drag
    leaves the state it would leave with its watcher runs taken out. *)
Theorem watcher_idle_while_dragging (sf : nat) (sched : list (Z * task)) :
  forall st : State,
    isDragging (inner st) = true ->
    Forall (fun tk => snd tk <> DragEnd) sched ->
    steps sf sched st = steps sf (List.filter not_watch sched) st /\
    isDragging (inner (steps sf sched st)) = true.
Proof.
  induction sched as [| [now k] rest IH]; intros st Hd Hall.
  - split; [reflexivity | exact Hd].
  - inversion Hall as [| ? ? Hk Hall']; subst. simpl in Hk.
    destruct (task_is_watch k) as [-> | Hnw].
    + assert (Hw : step sf now WatchFilters st = st).
      { simpl. unfold on_component, watch_filters. rewrite Hd.
        destruct st; reflexivity. }
      change (steps sf ((now, WatchFilters) :: rest) st)
        with (steps sf rest (step sf now WatchFilters st)).
      rewrite Hw.
      change (List.filter not_watch ((now, WatchFilters) :: rest))
        with (List.filter not_watch rest).
      apply IH; assumption.
    + assert (Hkeep : List.filter not_watch ((now, k) :: rest)
                      = (now, k) :: List.filter not_watch rest).
      { destruct k; try reflexivity. contradiction. }
      rewrite Hkeep.
      change (steps sf ((now, k) :: rest) st)
        with (steps sf rest (step sf now k st)).
      change (steps sf ((now, k) :: List.filter not_watch rest) st)
        with (steps sf (List.filter not_watch rest) (step sf now k st)).
      apply IH; [| exact Hall'].
      apply isDragging_step; assumption.
Qed.

(** X25.  The end of a drag followed by the watcher loses nothing: the
    parent holds the working copy, the working copy is its JSON copy, the
    same list when its numbers are finite, and the curves are drawn from it. *)
Theorem drag_end_resync (sf : nat) (t1 t2 : Z) (st : State) :
  Forall json_safe (internalFilters (inner st)) ->
  let st' := steps sf [(t1, DragEnd); (t2, WatchFilters)] st in
  filters (inner st') = internalFilters (inner st) /\
  internalFilters (inner st') = internalFilters (inner st) /\
  isDragging (inner st') = false /\
  up_to_date scaleLog clientWidth selectedId (inner st').
Proof.
  intros Hsafe st'. subst st'. simpl steps.
  unfold drag_end, on_component, watch_filters. simpl.
  assert (Hdraw : forall c,
            filters (drawChart scaleLog scaleLinear clientWidth selectedId c)
            = filters c /\
            internalFilters
              (drawChart scaleLog scaleLinear clientWidth selectedId c)
            = internalFilters c /\
            isDragging
              (drawChart scaleLog scaleLinear clientWidth selectedId c)
            = isDragging c).
  { intros c. unfold drawChart. cbv zeta.
    destruct (dragTarget selectedId (remove_svg c));
      rewrite filters_updateCurves, internal_updateCurves,
        isDragging_updateCurves,
        ?filters_updateHandles, ?internal_updateHandles,
        ?isDragging_updateHandles;
      repeat split; reflexivity. }
  match goal with
  | |- context [drawChart _ _ _ _ ?c] => destruct (Hdraw c) as (Hf & Hi & Hg)
  end.
  rewrite Hf, Hi, Hg. simpl.
  rewrite (json_clone_id _ Hsafe).
  repeat split; try reflexivity.
  - unfold drawChart. cbv zeta.
    destruct (dragTarget _ _); apply updateCurves_idem.
  - unfold drawChart. cbv zeta.
    destruct (dragTarget _ _); apply updateCurves_idem.
Qed.

End Watcher.

Lemma watcher_idle_while_dragging_witness :
  run d3.scaleLog d3.scaleLinear 800 1 0%nat
    [(0, HandleDrag (Js.Fin 0) (Js.Fin 155)); (5, WatchFilters);
     (10, QDrag (Js.Fin 400) 1)]%Z state_dragging
  = run d3.scaleLog d3.scaleLinear 800 1 0%nat
      [(0, HandleDrag (Js.Fin 0) (Js.Fin 155));
       (10, QDrag (Js.Fin 400) 1)]%Z state_dragging.
Proof.
  refine (proj1 (watcher_idle_while_dragging d3.scaleLog d3.scaleLinear 800 1
                   0%nat
                   [(0, HandleDrag (Js.Fin 0) (Js.Fin 155)); (5, WatchFilters);
                    (10, QDrag (Js.Fin 400) 1)]%Z state_dragging eq_refl _)).
  repeat constructor; discriminate.
Defined.

Lemma drag_end_resync_witness :
  let st' :=
    run d3.scaleLog d3.scaleLinear 800 1 0%nat
      [(30, DragEnd); (31, WatchFilters)]%Z state_dragging in
  filters (inner st') = [peaking_A] /\
  internalFilters (inner st') = [peaking_A] /\
  isDragging (inner st') = false /\
  up_to_date d3.scaleLog 800 1 (inner st').
Proof.
  refine (drag_end_resync d3.scaleLog d3.scaleLinear 800 1 0%nat 30 31
            state_dragging _).
  constructor; [| constructor]. repeat split.
Defined.

(** ** Columns of the curves *)

Section Columns.

Variable scaleLog : d3.ScaleCtor.
Variable clientWidth : Z.
Variable selectedId : Z.

Local Abbreviation curves := (updateCurves scaleLog clientWidth selectedId).

Lemma sampleCurve_freq (g1 g2 : Js.num -> Js.num) :
  map Sample.freq (sampleCurve scaleLog clientWidth g1)
  = map Sample.freq (sampleCurve scaleLog clientWidth g2).
Proof. unfold sampleCurve. rewrite !map_map. reflexivity. Qed.

Lemma sampleCurve_length (g : Js.num -> Js.num) :
  length (sampleCurve scaleLog clientWidth g)
  = Z.to_nat ((innerWidth clientWidth + 1) / 2).
Proof.
  unfold sampleCurve. rewrite length_map, range_step2, length_map.
  apply length_seq.
Qed.

Lemma total_gain_single (flt : Filter) (freq : Js.num) :
  getTotalGain [flt] freq = getFilterGain flt freq.
Proof. unfold getTotalGain. simpl. apply add_Fin_0_l. Qed.

(** X26.  Both curves have one point for every second pixel of the inner
    width, none at all when the container is no wider than its margins, and
    the highlight curve, when there is one, is sampled at the frequencies of
    the full curve; it is the full curve itself when the selected filter is
    the only one. *)
Theorem curve_columns (c : Component) :
  length (totalCurve (curves c))
  = Z.to_nat ((clientWidth - 100 + 1) / 2) /\
  ((clientWidth <= 100)%Z ->
   totalCurve (curves c) = [] /\
   (selectedArea (curves c) = None \/ selectedArea (curves c) = Some [])) /\
  (forall sel, selectedArea (curves c) = Some sel ->
     map Sample.freq sel = map Sample.freq (totalCurve (curves c))) /\
  (forall flt, internalFilters c = [flt] -> id flt = selectedId ->
     selectedArea (curves c) = Some (totalCurve (curves c))).
Proof.
  assert (Htot : totalCurve (curves c)
                 = sampleCurve scaleLog clientWidth
                     (getTotalGain (internalFilters c))).
  { unfold updateCurves.
    destruct (selectedFilter selectedId c) as [[i f] |]; reflexivity. }
  assert (Hlen : forall g,
            length (sampleCurve scaleLog clientWidth g)
            = Z.to_nat ((clientWidth - 100 + 1) / 2)).
  { intros g. rewrite sampleCurve_length. unfold innerWidth.
    f_equal. f_equal. lia. }
  split; [rewrite Htot; apply Hlen |].
  split; [| split].
  - intros Hnarrow.
    assert (Hnil : forall g, sampleCurve scaleLog clientWidth g = []).
    { intros g. apply length_zero_iff_nil. rewrite Hlen.
      assert (((clientWidth - 100 + 1) / 2 <= 0)%Z)
        by (Z.div_mod_to_equations; lia).
      lia. }
    split; [rewrite Htot; apply Hnil |].
    unfold updateCurves.
    destruct (selectedFilter selectedId c) as [[i f] |]; simpl.
    + right. rewrite Hnil. reflexivity.
    + left. reflexivity.
  - intros sel Hsel. rewrite Htot. revert Hsel. unfold updateCurves.
    destruct (selectedFilter selectedId c) as [[i f] |]; simpl.
    + intros [= <-]. apply sampleCurve_freq.
    + discriminate.
  - intros flt Hl Hid. rewrite Htot. unfold updateCurves, selectedFilter.
    rewrite Hl. simpl. rewrite decide_True by exact Hid. simpl.
    f_equal. unfold sampleCurve. apply map_ext. intros x.
    rewrite total_gain_single. reflexivity.
Qed.

End Columns.

(** ** The application's state *)

Section Application.

Lemma validateCoeff_lookup (m : gmap string any) (k j : string) :
  validateCoeff m k !! j
  = if decide (j = k) then Some (validated (m !! k)) else m !! j.
Proof.
  unfold validateCoeff, validated.
  destruct (decide (j = k)) as [-> | Hne].
  - destruct (m !! k) as [[n | s | |] |] eqn:Hk; simpl;
      try apply lookup_insert_eq.
    destruct (isNaN n); [apply lookup_insert_eq | exact Hk].
  - destruct (m !! k) as [[n | s | |] |] eqn:Hk; simpl;
      try (apply lookup_insert_ne; congruence).
    destruct (isNaN n); [apply lookup_insert_ne; congruence | reflexivity].
Qed.

Lemma validated_idem (o : option any) :
  validated (Some (validated o)) = validated o.
Proof.
  destruct o as [[n | s | |] |]; simpl; try reflexivity.
  destruct (isNaN n) eqn:Hn; simpl; [reflexivity |]. rewrite Hn. reflexivity.
Qed.

Lemma validate_fold_lookup (ks : list string) :
  forall (m : gmap string any) (j : string),
    foldl validateCoeff m ks !! j
    = if decide (j ∈ ks) then Some (validated (m !! j)) else m !! j.
Proof.
  induction ks as [| k ks IH]; intros m j; simpl.
  - destruct (decide (j ∈ [])) as [Hin | _]; [| reflexivity].
    apply elem_of_nil in Hin. destruct Hin.
  - rewrite IH, validateCoeff_lookup.
    destruct (decide (j = k)) as [-> | Hne].
    + rewrite validated_idem.
      rewrite (decide_True (P := k ∈ k :: ks)) by apply list_elem_of_here.
      destruct (decide (k ∈ ks)); reflexivity.
    + destruct (decide (j ∈ ks)) as [Hin | Hnin].
      * rewrite decide_True by (apply list_elem_of_further; exact Hin).
        reflexivity.
      * rewrite decide_False; [reflexivity |].
        intros Hc. apply elem_of_cons in Hc as [Hc | Hc]; contradiction.
Qed.

Lemma validated_number (o : option any) :
  exists n, validated o = AnyNum n /\ n <> Js.NaN.
Proof.
  destruct o as [[n | s | |] |]; simpl;
    try (exists (Js.Fin 0); split; [reflexivity | discriminate]).
  destruct n; simpl; eexists; split; try reflexivity; discriminate.
Qed.

(** X27.  After [validateCoeffs] each of the five coefficients is a number
    other than [NaN]: a coefficient that was such a number is kept, any
    other value (a string, [null], [NaN], a missing property) becomes 0. No
    other property is touched, and validating again changes nothing. *)
Theorem validateCoeffs_sound (filter : gmap string any) :
  (forall key, key ∈ coeff_keys ->
     exists n, validateCoeffs filter !! key = Some (AnyNum n)
               /\ n <> Js.NaN) /\
  (forall key n, key ∈ coeff_keys ->
     filter !! key = Some (AnyNum n) -> n <> Js.NaN ->
     validateCoeffs filter !! key = Some (AnyNum n)) /\
  (forall key, key ∈ coeff_keys ->
     (forall n, filter !! key = Some (AnyNum n) -> n = Js.NaN) ->
     validateCoeffs filter !! key = Some (AnyNum (Js.Fin 0))) /\
  (forall key, key ∉ coeff_keys ->
     validateCoeffs filter !! key = filter !! key) /\
  validateCoeffs (validateCoeffs filter) = validateCoeffs filter.
Proof.
  unfold validateCoeffs. repeat split.
  - intros key Hin. rewrite validate_fold_lookup, decide_True by exact Hin.
    destruct (validated_number (filter !! key)) as (n & Hn & Hnn).
    exists n. rewrite Hn. split; [reflexivity | exact Hnn].
  - intros key n Hin Hk Hn.
    rewrite validate_fold_lookup, decide_True by exact Hin.
    rewrite Hk. simpl. destruct n; try reflexivity. contradiction.
  - intros key Hin Hbad.
    rewrite validate_fold_lookup, decide_True by exact Hin.
    destruct (filter !! key) as [[n | s | |] |]; simpl; try reflexivity.
    rewrite (Hbad n eq_refl). reflexivity.
  - intros key Hnin.
    rewrite validate_fold_lookup, decide_False by exact Hnin. reflexivity.
  - apply map_eq. intros j. rewrite (validate_fold_lookup coeff_keys (foldl _ _ _)).
    destruct (decide (j ∈ coeff_keys)) as [Hin | Hnin]; [| reflexivity].
    rewrite validate_fold_lookup, decide_True by exact Hin.
    rewrite validated_idem. reflexivity.
Qed.

(** X28.  Each channel keeps its own filters and its own selection: what is
    written to the active channel is what is read back from it, the other
    channel's filters and both selections stay as they were, and a selection
    made on one channel is found again after a visit to the other. *)
Theorem channels_independent (app : App) (v : list Filter) (i j : Z) :
  activeFilters_get (activeFilters_set v app) = Some v /\
  (forall c, c <> activeChannel app ->
     channels (activeFilters_set v app) !! c = channels app !! c) /\
  selectedFilterId_get (activeFilters_set v app) = selectedFilterId_get app /\
  selectedFilterId_get (selectedFilterId_set i app) = i /\
  activeFilters_get (selectedFilterId_set i app) = activeFilters_get app /\
  selectedFilterId_get
    (set_activeChannel "left"
       (selectedFilterId_set j
          (set_activeChannel "right"
             (selectedFilterId_set i (set_activeChannel "left" app))))) = i.
Proof.
  split; [apply lookup_insert_eq |].
  split; [intros c Hc; apply lookup_insert_ne; congruence |].
  split; [reflexivity |].
  unfold selectedFilterId_get, selectedFilterId_set, activeFilters_get.
  split; [destruct (String.eqb (activeChannel app) "left") eqn:He;
          simpl; rewrite He; reflexivity |].
  split; [destruct (String.eqb (activeChannel app) "left"); reflexivity |].
  reflexivity.
Qed.

End Application.
